(** * Subtitle extraction from Matroska files: a shallow embedding of
    [resources/lib/py_subtitle_extractor/mkv.py]

    The file has four parts: the program, the vocabulary of the statements,
    the concrete files of the examples, and the lemmas and theorems.

    The Python module walks the EBML element tree of a Matroska file with a
    position-tracking reader.  Here the byte source is a record holding the
    bytes and the current offset, Python exceptions are an error outcome, and
    every [while] loop is a fixpoint on a fuel argument that bounds the number
    of iterations ([Diverge] is the outcome of a loop that has not finished
    within its fuel). *)

From Stdlib Require Import String Ascii Strings.Byte.
From Stdlib Require Import ZArith QArith List Sorted Bool Lia.
Import ListNotations.
Close Scope Q_scope.
Open Scope Z_scope.

(** ** Outcomes: values, Python exceptions, exhausted fuel *)

Inductive exn := EOFError | ValueError | OSError | IndexError.

Inductive outcome (A : Type) :=
| Ok (a : A)
| Raise (e : exn)
| Diverge.
Arguments Ok {A} a.
Arguments Raise {A} e.
Arguments Diverge {A}.

Definition bind {A B} (m : outcome A) (k : A -> outcome B) : outcome B :=
  match m with
  | Ok a => k a
  | Raise e => Raise e
  | Diverge => Diverge
  end.

Notation "x <- c ;; k" := (bind c (fun x => k))
  (at level 61, c at next level, right associativity).
Notation "' p <- c ;; k" := (bind c (fun x => let 'p := x in k))
  (at level 61, p pattern, c at next level, right associativity).

(** ** Byte sources

    [mkv.py] reads from three kinds of objects: a memory map and a buffered
    file (in [extract_subtitles]) and an in-memory [BytesIO] (in
    [_parse_tracks] and [_parse_track_entry]).  They agree on reads of a
    non-negative length and differ on negative lengths and on seeks that leave
    the data. *)

Inductive source_kind := Mmap | Buffered | BytesIO.

Record file := mkfile { kind : source_kind; data : list byte; pos : Z }.

Definition open_file (k : source_kind) (bs : list byte) : file := mkfile k bs 0.
Definition set_pos (f : file) (p : Z) : file := mkfile (kind f) (data f) p.
Definition tell (f : file) : Z := pos f.
Definition size (f : file) : Z := Z.of_nat (length (data f)).
Definition remaining (f : file) : list byte := skipn (Z.to_nat (pos f)) (data f).

(** The bytes a read delivers: at most [k], fewer at the end of the data. *)
Definition take (k : nat) (f : file) : list byte * file :=
  let bs := firstn k (remaining f) in
  (bs, set_pos f (pos f + Z.of_nat (length bs))).

(** [f.read(n)].  A negative [n] reads to the end of a memory map or a
    [BytesIO]; a buffered file accepts [-1] only. *)
Definition read (n : Z) (f : file) : outcome (list byte * file) :=
  if 0 <=? n then Ok (take (Z.to_nat n) f)
  else match kind f with
       | Buffered =>
           if n =? -1 then Ok (take (length (remaining f)) f) else Raise ValueError
       | _ => Ok (take (length (remaining f)) f)
       end.

(** [f.seek(target)]: an absolute seek. *)
Definition seek_set (target : Z) (f : file) : outcome file :=
  match kind f with
  | Buffered => if target <? 0 then Raise OSError else Ok (set_pos f target)
  | Mmap =>
      if (target <? 0) || (size f <? target) then Raise ValueError
      else Ok (set_pos f target)
  | BytesIO => if target <? 0 then Raise ValueError else Ok (set_pos f target)
  end.

(** [f.seek(n, 1)]: a seek relative to the current position. *)
Definition seek_cur (n : Z) (f : file) : outcome file :=
  match kind f with
  | BytesIO => Ok (set_pos f (Z.max 0 (pos f + n)))
  | _ => seek_set (pos f + n) f
  end.

(** ** Integers from bytes *)

Definition byte_val (b : byte) : Z := Z.of_N (Byte.to_N b).

(** [int.from_bytes(bs, "big")] *)
Definition int_from_bytes (bs : list byte) : Z :=
  fold_left (fun acc b => acc * 256 + byte_val b) bs 0.

(** [int.from_bytes(bs, "big", signed=True)]: two's complement on the width of
    the bytes actually given. *)
Definition int_from_bytes_signed (bs : list byte) : Z :=
  let v := int_from_bytes bs in
  let w := 8 * Z.of_nat (length bs) in
  if (0 <? w) && (2 ^ (w - 1) <=? v) then v - 2 ^ w else v.

(** ** The primitive reader *)

(** Modelled from the spec: [ebml.py] ([read_id], [read_size], [read_vint]) is
    not among the sources.  Section 4.1 of the specification gives their
    contract: the number of leading zero bits of the first byte fixes the
    length of the encoding (1 to 8 bytes); [read_id] returns the whole encoded
    sequence with its marker bit, [read_size] and [read_vint] strip the marker;
    all return the number of bytes consumed and fail with the end-of-input
    condition when fewer bytes remain than the encoding requires.  A first byte
    with no marker bit at all is a structurally invalid encoding, which fails
    in a different way. *)
Definition vint_length (b : Z) : option Z :=
  if 0x80 <=? b then Some 1
  else if 0x40 <=? b then Some 2
  else if 0x20 <=? b then Some 3
  else if 0x10 <=? b then Some 4
  else if 0x08 <=? b then Some 5
  else if 0x04 <=? b then Some 6
  else if 0x02 <=? b then Some 7
  else if 0x01 <=? b then Some 8
  else None.

(** Modelled from the spec: the bytes of one variable-length encoding at the
    current position (the part common to the three readers of [ebml.py]). *)
Definition read_encoded (f : file) : outcome (list byte * Z * file) :=
  '(b0, f1) <- read 1 f;;
  match b0 with
  | [] => Raise EOFError
  | b :: _ =>
      match vint_length (byte_val b) with
      | None => Raise ValueError
      | Some len =>
          '(more, f2) <- read (len - 1) f1;;
          if Z.of_nat (length more) <? len - 1 then Raise EOFError
          else Ok (b0 ++ more, len, f2)
      end
  end.

(** Modelled from the spec: [read_id] of [ebml.py], marker bits retained. *)
Definition read_id (f : file) : outcome (Z * Z * file) :=
  '(bs, len, f') <- read_encoded f;;
  Ok (int_from_bytes bs, len, f').

(** Modelled from the spec: [read_size] of [ebml.py], marker bits stripped. *)
Definition read_size (f : file) : outcome (Z * Z * file) :=
  '(bs, len, f') <- read_encoded f;;
  Ok (Z.land (int_from_bytes bs) (Z.ones (7 * len)), len, f').

(** Modelled from the spec: [read_vint] of [ebml.py], same stripping rule as
    [read_size]. *)
Definition read_vint (f : file) : outcome (Z * Z * file) := read_size f.

(** ** Text: [bytes.decode("utf-8", "ignore")] and [str.strip()]

    A Python string is the list of its code points. *)

Definition pystr := list Z.

Definition str_of_string (s : string) : pystr :=
  map (fun a => Z.of_N (N_of_ascii a)) (list_ascii_of_string s).

Definition bytes_of_string (s : string) : list byte :=
  map byte_of_ascii (list_ascii_of_string s).

Definition is_cont (b : Z) : bool := (0x80 <=? b) && (b <? 0xC0).

(** The UTF-8 decoder with the [ignore] error handler: an invalid start byte
    is dropped alone, an invalid continuation drops the bytes of the sequence
    read so far, and a sequence cut by the end of the data drops what is
    left. *)
Fixpoint utf8_ignore (bs : list Z) : pystr :=
  match bs with
  | [] => []
  | b0 :: t0 =>
      if b0 <? 0x80 then b0 :: utf8_ignore t0
      else if b0 <? 0xC2 then utf8_ignore t0
      else if b0 <? 0xE0 then
        match t0 with
        | [] => []
        | b1 :: t1 =>
            if is_cont b1
            then ((b0 - 0xC0) * 64 + (b1 - 0x80)) :: utf8_ignore t1
            else utf8_ignore t0
        end
      else if b0 <? 0xF0 then
        match t0 with
        | [] => []
        | b1 :: t1 =>
            if negb (is_cont b1)
               || ((b0 =? 0xE0) && (b1 <? 0xA0))
               || ((b0 =? 0xED) && (0xA0 <=? b1))
            then utf8_ignore t0
            else
              match t1 with
              | [] => []
              | b2 :: t2 =>
                  if is_cont b2
                  then ((b0 - 0xE0) * 4096 + (b1 - 0x80) * 64 + (b2 - 0x80))
                         :: utf8_ignore t2
                  else utf8_ignore t1
              end
        end
      else if b0 <? 0xF5 then
        match t0 with
        | [] => []
        | b1 :: t1 =>
            if negb (is_cont b1)
               || ((b0 =? 0xF0) && (b1 <? 0x90))
               || ((b0 =? 0xF4) && (0x90 <=? b1))
            then utf8_ignore t0
            else
              match t1 with
              | [] => []
              | b2 :: t2 =>
                  if negb (is_cont b2) then utf8_ignore t1
                  else
                    match t2 with
                    | [] => []
                    | b3 :: t3 =>
                        if is_cont b3
                        then ((b0 - 0xF0) * 262144 + (b1 - 0x80) * 4096
                              + (b2 - 0x80) * 64 + (b3 - 0x80))
                               :: utf8_ignore t3
                        else utf8_ignore t2
                    end
              end
        end
      else utf8_ignore t0
  end.

(** [v.decode("utf-8", "ignore")] *)
Definition decode (v : list byte) : pystr := utf8_ignore (map byte_val v).

(** The code points [str.isspace] accepts. *)
Definition isspace (c : Z) : bool :=
  ((0x09 <=? c) && (c <=? 0x0D)) || ((0x1C <=? c) && (c <=? 0x20))
  || (c =? 0x85) || (c =? 0xA0) || (c =? 0x1680)
  || ((0x2000 <=? c) && (c <=? 0x200A))
  || (c =? 0x2028) || (c =? 0x2029) || (c =? 0x202F) || (c =? 0x205F)
  || (c =? 0x3000).

Fixpoint lstrip (s : pystr) : pystr :=
  match s with
  | [] => []
  | c :: s' => if isspace c then lstrip s' else s
  end.

(** [s.strip()] *)
Definition strip (s : pystr) : pystr := rev (lstrip (rev (lstrip s))).

(** The truth value of a string in a condition: [if txt], [not info["language"]]. *)
Definition nonempty (s : pystr) : bool :=
  match s with [] => false | _ => true end.

(** ** Element identifiers *)

Definition SEGMENT     : Z := 0x18538067.
Definition TRACKS      : Z := 0x1654AE6B.
Definition TRACKENTRY  : Z := 0xAE.
Definition TRACKTYPE   : Z := 0x83.
Definition TRACKNUMBER : Z := 0xD7.
Definition CODECID     : Z := 0x86.
Definition TRACKNAME   : Z := 0x536E.
Definition LANG_BCP47  : Z := 0x22B59D.
Definition LANG        : Z := 0x22B59C.
Definition CLUSTER     : Z := 0x1F43B675.
Definition TIMECODE    : Z := 0xE7.
Definition SIMPLEBLK   : Z := 0xA3.
Definition BLKGROUP    : Z := 0xA0.
Definition BLOCK       : Z := 0xA1.
Definition BLOCKDUR    : Z := 0x9B.

(** [_read_header]: an element identifier, then its size. *)
Definition _read_header (f : file) : outcome (Z * Z * file) :=
  '(eid, _, f1) <- read_id f;;
  '(sz, _, f2) <- read_size f1;;
  Ok (eid, sz, f2).

(** ** The track table *)

(** The dictionary [info] of [_parse_track_entry]: its five keys are fixed. *)
Record track_info := mkinfo {
  type : Z;
  track_number : Z;
  codec_id : pystr;
  language : pystr;
  name : pystr
}.

Definition info0 : track_info := mkinfo 0 0 [] [] [].

Definition set_type (i : track_info) (v : Z) :=
  mkinfo v (track_number i) (codec_id i) (language i) (name i).
Definition set_track_number (i : track_info) (v : Z) :=
  mkinfo (type i) v (codec_id i) (language i) (name i).
Definition set_codec_id (i : track_info) (v : pystr) :=
  mkinfo (type i) (track_number i) v (language i) (name i).
Definition set_language (i : track_info) (v : pystr) :=
  mkinfo (type i) (track_number i) (codec_id i) v (name i).
Definition set_name (i : track_info) (v : pystr) :=
  mkinfo (type i) (track_number i) (codec_id i) (language i) v.

(** The [if]/[elif] chain of [_parse_track_entry] for one sub-element;
    [v[0]] raises [IndexError] on an empty value. *)
Definition set_field (info : track_info) (eid : Z) (v : list byte)
  : outcome track_info :=
  if eid =? TRACKTYPE then
    match v with
    | [] => Raise IndexError
    | b :: _ => Ok (set_type info (byte_val b))
    end
  else if eid =? TRACKNUMBER then Ok (set_track_number info (int_from_bytes v))
  else if eid =? CODECID then Ok (set_codec_id info (decode v))
  else if eid =? LANG_BCP47 then Ok (set_language info (decode v))
  else if (eid =? LANG) && negb (nonempty (language info))
       then Ok (set_language info (decode v))
  else if eid =? TRACKNAME then Ok (set_name info (decode v))
  else Ok info.

(** The [while True] loop of [_parse_track_entry]; [EOFError] from the header
    read leaves the loop. *)
Fixpoint track_entry_loop (n : nat) (buf : file) (info : track_info)
  : outcome track_info :=
  match n with
  | O => Diverge
  | S n' =>
      match _read_header buf with
      | Raise EOFError => Ok info
      | Raise e => Raise e
      | Diverge => Diverge
      | Ok (eid, sz, buf1) =>
          '(v, buf2) <- read sz buf1;;
          info' <- set_field info eid v;;
          track_entry_loop n' buf2 info'
      end
  end.

Definition _parse_track_entry (fuel : nat) (bs : list byte) : outcome track_info :=
  track_entry_loop fuel (open_file BytesIO bs) info0.

(** The [while True] loop of [_parse_tracks]. *)
Fixpoint tracks_loop (n fuel : nat) (buf : file) (out : list track_info)
  : outcome (list track_info) :=
  match n with
  | O => Diverge
  | S n' =>
      match _read_header buf with
      | Raise EOFError => Ok out
      | Raise e => Raise e
      | Diverge => Diverge
      | Ok (eid, sz, buf1) =>
          '(chunk, buf2) <- read sz buf1;;
          if eid =? TRACKENTRY then
            info <- _parse_track_entry fuel chunk;;
            tracks_loop n' fuel buf2 (out ++ [info])
          else tracks_loop n' fuel buf2 out
      end
  end.

Definition _parse_tracks (fuel : nat) (bs : list byte) : outcome (list track_info) :=
  tracks_loop fuel fuel (open_file BytesIO bs) [].

(** The [while f.tell()<end] loop of [extract_subtitle_tracks]. *)
Fixpoint find_tracks (n fuel : nat) (f : file) (end_ : Z)
  : outcome (list track_info) :=
  match n with
  | O => Diverge
  | S n' =>
      if tell f <? end_ then
        '(eid, sz, f1) <- _read_header f;;
        if eid =? TRACKS then
          '(body, _) <- read sz f1;;
          ts <- _parse_tracks fuel body;;
          Ok (filter (fun t => type t =? 0x11) ts)
        else
          f2 <- seek_cur sz f1;;
          find_tracks n' fuel f2 end_
      else Ok []
  end.

(** [extract_subtitle_tracks(path)], on the bytes of the file at [path]. *)
Definition extract_subtitle_tracks (fuel : nat) (bs : list byte)
  : outcome (list track_info) :=
  let f := open_file Buffered bs in
  '(_, h, f) <- _read_header f;;
  f <- seek_cur h f;;
  '(eid, h, f) <- _read_header f;;
  if negb (eid =? SEGMENT) then Ok []
  else find_tracks fuel fuel f (tell f + h).

(** ** Cues *)

Inductive cue :=
| Cue2 (start : Z) (text : pystr)
| Cue3 (start : Z) (text : pystr) (stop : Z).

(** [_handle_block] *)
Definition _handle_block (f : file) (sz base track : Z)
  : outcome (list cue * file) :=
  '(trk, vlen, f) <- read_vint f;;
  '(tb, f) <- read 2 f;;
  let t := int_from_bytes_signed tb in
  '(_, f) <- read 1 f;;
  let plen := sz - vlen - 3 in
  if trk =? track then
    '(payload, f) <- read plen f;;
    let txt := strip (decode payload) in
    Ok ([Cue2 (base + t) txt], f)
  else
    f <- seek_cur plen f;;
    Ok ([], f).

(** The three variables [txt], [t_rel], [duration] of [_handle_group]. *)
Record group_state := mkgroup {
  txt : option pystr;
  t_rel : option Z;
  duration : option Z
}.

Definition group0 : group_state := mkgroup None None None.

(** The [while f.tell()<end] loop of [_handle_group]. *)
Fixpoint group_loop (n : nat) (f : file) (end_ track : Z) (st : group_state)
  : outcome (group_state * file) :=
  match n with
  | O => Diverge
  | S n' =>
      if tell f <? end_ then
        '(eid, s, f) <- _read_header f;;
        if eid =? BLOCK then
          let p := tell f in
          '(trk, vlen, f) <- read_vint f;;
          '(tb, f) <- read 2 f;;
          let t := int_from_bytes_signed tb in
          '(_, f) <- read 1 f;;
          let plen := s - vlen - 3 in
          if trk =? track then
            '(payload, f) <- read plen f;;
            group_loop n' f end_ track
              (mkgroup (Some (strip (decode payload))) (Some t) (duration st))
          else
            f <- seek_set (p + s) f;;
            group_loop n' f end_ track (mkgroup (txt st) (Some t) (duration st))
        else if eid =? BLOCKDUR then
          '(d, f) <- read s f;;
          group_loop n' f end_ track
            (mkgroup (txt st) (t_rel st) (Some (int_from_bytes d)))
        else
          f <- seek_cur s f;;
          group_loop n' f end_ track st
      else Ok (st, f)
  end.

(** The tail of [_handle_group]: [if txt and t_rel is not None] and
    [if duration]. *)
Definition group_cues (base : Z) (st : group_state) : list cue :=
  match txt st, t_rel st with
  | Some s, Some t =>
      if nonempty s then
        let start := base + t in
        match duration st with
        | Some d => if d =? 0 then [Cue2 start s] else [Cue3 start s (start + d)]
        | None => [Cue2 start s]
        end
      else []
  | _, _ => []
  end.

(** [_handle_group] *)
Definition _handle_group (fuel : nat) (f : file) (sz base track : Z)
  : outcome (list cue * file) :=
  let end_ := tell f + sz in
  '(st, f) <- group_loop fuel f end_ track group0;;
  Ok (group_cues base st, f).

(** [_read_cluster_time] *)
Fixpoint _read_cluster_time (n : nat) (f : file) (end_ : Z) : outcome (Z * file) :=
  match n with
  | O => Diverge
  | S n' =>
      if tell f <? end_ then
        '(eid, sz, f) <- _read_header f;;
        if eid =? TIMECODE then
          '(v, f) <- read sz f;;
          Ok (int_from_bytes v, f)
        else
          f <- seek_cur sz f;;
          _read_cluster_time n' f end_
      else Ok (0, f)
  end.

(** The [while f.tell()<end] loop of [_parse_cluster]. *)
Fixpoint cluster_loop (n fuel : nat) (f : file) (end_ base track : Z)
  (out : list cue) : outcome (list cue * file) :=
  match n with
  | O => Diverge
  | S n' =>
      if tell f <? end_ then
        '(eid, sz, f) <- _read_header f;;
        if eid =? SIMPLEBLK then
          '(cs, f) <- _handle_block f sz base track;;
          cluster_loop n' fuel f end_ base track (out ++ cs)
        else if eid =? BLKGROUP then
          '(cs, f) <- _handle_group fuel f sz base track;;
          cluster_loop n' fuel f end_ base track (out ++ cs)
        else
          f <- seek_cur sz f;;
          cluster_loop n' fuel f end_ base track out
      else Ok (out, f)
  end.

(** [_parse_cluster] *)
Definition _parse_cluster (fuel : nat) (f : file) (sz track : Z)
  : outcome (list cue * file) :=
  let end_ := tell f + sz in
  '(base, f) <- _read_cluster_time fuel f end_;;
  cluster_loop fuel fuel f end_ base track [].

(** ** Progress reports

    [on_progress] is either absent or a callback; the calls made to it are the
    observable effect, kept as the list of the values it received.
    [percent / 100] is the rational [percent # 100]; [int(100 * pos / h)]
    truncates the quotient towards zero, which [Z.quot] does exactly (the
    float quotient of the source rounds only beyond 2^53). *)

Definition progress_percent (p segment_start segment_end : Z) : Z :=
  Z.quot (100 * (p - segment_start)) (segment_end - segment_start).

(** One top-level child of the Segment: a Cluster is parsed, anything else is
    skipped. *)
Definition segment_child (fuel : nat) (f : file) (eid sz track : Z)
  (subs : list cue) : outcome (list cue * file) :=
  if eid =? CLUSTER then
    '(cs, f) <- _parse_cluster fuel f sz track;;
    Ok (subs ++ cs, f)
  else
    f <- seek_cur sz f;;
    Ok (subs, f).

(** The [while f.tell() < segment_end] loop of [_extract_subtitles_from]. *)
Fixpoint segment_loop (n fuel : nat) (f : file) (track : Z) (on_progress : bool)
  (segment_start segment_end : Z) (subs : list cue) (last_percent : Z)
  (log : list Q) : list Q * outcome (list cue * file) :=
  match n with
  | O => (log, Diverge)
  | S n' =>
      if tell f <? segment_end then
        match '(eid, sz, f1) <- _read_header f;;
              segment_child fuel f1 eid sz track subs with
        | Ok (subs', f2) =>
            if on_progress then
              let percent := progress_percent (tell f2) segment_start segment_end in
              if negb (percent =? last_percent) then
                segment_loop n' fuel f2 track on_progress segment_start
                  segment_end subs' percent (log ++ [Qmake percent 100])
              else
                segment_loop n' fuel f2 track on_progress segment_start
                  segment_end subs' last_percent log
            else
              segment_loop n' fuel f2 track on_progress segment_start
                segment_end subs' last_percent log
        | Raise e => (log, Raise e)
        | Diverge => (log, Diverge)
        end
      else (log, Ok (subs, f))
  end.

(** [_extract_subtitles_from]: the values given to the callback and the
    outcome; with the cues comes the source as the scan left it, for the
    statements that speak of the position reached. *)
Definition _extract_subtitles_from (fuel : nat) (f : file) (track : Z)
  (on_progress : bool) : list Q * outcome (list cue * file) :=
  match '(_, h, f) <- _read_header f;;
        f <- seek_cur h f;;
        '(eid, h, f) <- _read_header f;;
        Ok (eid, h, f) with
  | Ok (eid, h, f) =>
      if negb (eid =? SEGMENT) then ([], Ok ([], f))
      else
        let segment_start := tell f in
        let segment_end := segment_start + h in
        segment_loop fuel fuel f track on_progress segment_start segment_end
          [] (-1) []
  | Raise e => ([], Raise e)
  | Diverge => ([], Diverge)
  end.

Definition result {A} (r : outcome (A * file)) : outcome A :=
  '(a, _) <- r;; Ok a.

(** [extract_subtitles(path, track, on_progress)], on the bytes of the file at
    [path]: the memory map first ([mmap] refuses an empty file with
    [ValueError]), and the buffered file again from the start when the first
    attempt raised [ValueError] or [OSError]. *)
Definition extract_subtitles (fuel : nat) (bs : list byte) (track : Z)
  (on_progress : bool) : list Q * outcome (list cue) :=
  let buffered log :=
    let '(log', r) :=
      _extract_subtitles_from fuel (open_file Buffered bs) track on_progress in
    (log ++ log', result r) in
  match bs with
  | [] => buffered []
  | _ =>
      match _extract_subtitles_from fuel (open_file Mmap bs) track on_progress with
      | (log, Raise ValueError) | (log, Raise OSError) => buffered log
      | (log, r) => (log, result r)
      end
  end.

(** * The vocabulary of the statements

    The theorems speak of a scan through what it met: the elements a loop of
    the program read, in order, with the positions the reader went through.
    Each relation below follows one loop of the source and holds the results
    of its reads as they came; none of them looks inside the reader. *)

(** ** The same position in another kind of source *)

Definition as_kind (k : source_kind) (f : file) : file := mkfile k (data f) (pos f).

Definition rekind {A} (k : source_kind) (r : outcome (A * file)) : outcome (A * file) :=
  '(a, f) <- r;; Ok (a, as_kind k f).

(** ** The elements of a Tracks or TrackEntry buffer *)

(** The elements met by the header-then-body scan of [_parse_tracks] and
    [_parse_track_entry], up to the header read that raises [EOFError]: the
    identifier and the bytes read as the value (fewer than the declared size
    when the buffer ends first). *)
Inductive scanned : file -> list (Z * list byte) -> Prop :=
| scanned_end buf :
    _read_header buf = Raise EOFError -> scanned buf []
| scanned_elem buf eid sz buf1 v buf2 es :
    _read_header buf = Ok (eid, sz, buf1) ->
    read sz buf1 = Ok (v, buf2) ->
    scanned buf2 es ->
    scanned buf ((eid, v) :: es).

(** The fields set by the elements of a TrackEntry, one after the other. *)
Fixpoint set_fields (info : track_info) (es : list (Z * list byte))
  : outcome track_info :=
  match es with
  | [] => Ok info
  | (eid, v) :: es' => info' <- set_field info eid v;; set_fields info' es'
  end.

(** Only [v[0]] on an empty TrackType value can fail. *)
Definition typed (es : list (Z * list byte)) : Prop :=
  Forall (fun e => fst e = TRACKTYPE -> snd e <> []) es.

(** An element other than the BCP-47 language element. *)
Definition not_bcp47 (e : Z * list byte) : Prop := fst e <> LANG_BCP47.

(** The decoded values of the legacy language elements, in order. *)
Definition legacy_values (es : list (Z * list byte)) : list pystr :=
  map (fun e => decode (snd e)) (filter (fun e => fst e =? LANG) es).

(** The first string of the list that is not empty, the empty string when
    there is none. *)
Fixpoint first_nonempty (l : list pystr) : pystr :=
  match l with
  | [] => []
  | s :: l' => if nonempty s then s else first_nonempty l'
  end.

(** ** The children of a BlockGroup *)

(** The children of a BlockGroup as [_handle_group] meets them. *)
Inductive group_child :=
| Hit (t : Z) (payload : list byte)   (* a Block of the requested track *)
| Miss (trk t : Z)                    (* a Block of another track *)
| Duration (d : list byte)            (* a BlockDuration *)
| Other (eid : Z).                    (* anything else *)

(** [group_scanned end_ track f cs f']: from [f] the loop of [_handle_group]
    meets the children [cs] and leaves at [f'], at or past [end_]. *)
Inductive group_scanned (end_ track : Z) : file -> list group_child -> file -> Prop :=
| gs_end f :
    end_ <= tell f -> group_scanned end_ track f [] f
| gs_hit f s f1 vlen f2 tb f3 fl f4 payload f5 t cs f' :
    tell f < end_ ->
    _read_header f = Ok (BLOCK, s, f1) ->
    read_vint f1 = Ok (track, vlen, f2) ->
    read 2 f2 = Ok (tb, f3) ->
    int_from_bytes_signed tb = t ->
    read 1 f3 = Ok (fl, f4) ->
    read (s - vlen - 3) f4 = Ok (payload, f5) ->
    group_scanned end_ track f5 cs f' ->
    group_scanned end_ track f (Hit t payload :: cs) f'
| gs_miss f s f1 trk vlen f2 tb f3 fl f4 f5 t cs f' :
    tell f < end_ ->
    _read_header f = Ok (BLOCK, s, f1) ->
    read_vint f1 = Ok (trk, vlen, f2) ->
    read 2 f2 = Ok (tb, f3) ->
    int_from_bytes_signed tb = t ->
    read 1 f3 = Ok (fl, f4) ->
    trk <> track ->
    seek_set (tell f1 + s) f4 = Ok f5 ->
    group_scanned end_ track f5 cs f' ->
    group_scanned end_ track f (Miss trk t :: cs) f'
| gs_duration f s f1 d f2 cs f' :
    tell f < end_ ->
    _read_header f = Ok (BLOCKDUR, s, f1) ->
    read s f1 = Ok (d, f2) ->
    group_scanned end_ track f2 cs f' ->
    group_scanned end_ track f (Duration d :: cs) f'
| gs_other f eid s f1 f2 cs f' :
    tell f < end_ ->
    _read_header f = Ok (eid, s, f1) ->
    eid <> BLOCK -> eid <> BLOCKDUR ->
    seek_cur s f1 = Ok f2 ->
    group_scanned end_ track f2 cs f' ->
    group_scanned end_ track f (Other eid :: cs) f'.

(** What one child does to the three variables of [_handle_group]. *)
Definition group_step (st : group_state) (c : group_child) : group_state :=
  match c with
  | Hit t payload => mkgroup (Some (strip (decode payload))) (Some t) (duration st)
  | Miss _ t => mkgroup (txt st) (Some t) (duration st)
  | Duration d => mkgroup (txt st) (t_rel st) (Some (int_from_bytes d))
  | Other _ => st
  end.

(** What the children say, in the words of the claims: the relative
    timestamps of all Block children, the texts of the Blocks of the requested
    track, the values of the BlockDuration children, each in file order. *)
Definition block_times (cs : list group_child) : list Z :=
  flat_map (fun c => match c with
                     | Hit t _ => [t] | Miss _ t => [t] | _ => []
                     end) cs.
Definition hit_texts (cs : list group_child) : list pystr :=
  flat_map (fun c => match c with
                     | Hit _ p => [strip (decode p)] | _ => []
                     end) cs.
Definition durations (cs : list group_child) : list Z :=
  flat_map (fun c => match c with
                     | Duration d => [int_from_bytes d] | _ => []
                     end) cs.

(** The last element of a list, after a default. *)
Definition last_after {A} (d : option A) (l : list A) : option A :=
  fold_left (fun _ x => Some x) l d.
Definition last_of {A} (l : list A) : option A := last_after None l.

Definition cue_start (c : cue) : Z :=
  match c with Cue2 s _ => s | Cue3 s _ _ => s end.
Definition cue_text (c : cue) : pystr :=
  match c with Cue2 _ x => x | Cue3 _ x _ => x end.

(** ** The children of a Cluster before its Timecode *)

(** [skipped end_ f es f']: from [f] the Timecode search of
    [_read_cluster_time] passes the children with the identifiers [es], none
    of them a Timecode, seeking over each by its size, and stands at [f']. *)
Inductive skipped (end_ : Z) : file -> list Z -> file -> Prop :=
| sk_nil f : skipped end_ f [] f
| sk_cons f eid sz f1 f2 es f' :
    tell f < end_ ->
    _read_header f = Ok (eid, sz, f1) ->
    eid <> TIMECODE ->
    seek_cur sz f1 = Ok f2 ->
    skipped end_ f2 es f' ->
    skipped end_ f (eid :: es) f'.

(** ** The progress reports made so far *)


(** * Concrete files

    Elements with a one-byte size field are enough to write the inputs of the
    examples. *)

Definition size1 (n : nat) : byte :=
  match Byte.of_N (128 + N.of_nat n) with Some b => b | None => xff end.

Definition element (eid body : list byte) : list byte :=
  eid ++ size1 (length body) :: body.

Definition ebml_head : list byte :=
  element [x1a; x45; xdf; xa3] (element [x42; x82] (bytes_of_string "matroska")).
Definition segment (body : list byte) := element [x18; x53; x80; x67] body.
Definition tracks (body : list byte) := element [x16; x54; xae; x6b] body.
Definition track_entry (body : list byte) := element [xae] body.
Definition cluster (body : list byte) := element [x1f; x43; xb6; x75] body.
Definition timecode (v : list byte) := element [xe7] v.
Definition void (body : list byte) := element [xec] body.
Definition lang (s : string) := element [x22; xb5; x9c] (bytes_of_string s).
Definition lang_bcp47 (s : string) := element [x22; xb5; x9d] (bytes_of_string s).

(** The content of a SimpleBlock or Block: track vint (one byte), relative
    timestamp (two bytes), flags, payload. *)
Definition block_body (trk : byte) (ts : list byte) (payload : list byte) :=
  trk :: ts ++ x00 :: payload.
Definition simple_block (trk : byte) (ts payload : list byte) :=
  element [xa3] (block_body trk ts payload).
Definition block_group (body : list byte) := element [xa0] body.
Definition block (trk : byte) (ts payload : list byte) :=
  element [xa1] (block_body trk ts payload).
Definition block_duration (v : list byte) := element [x9b] v.

(** One subtitle track (number 2, S_TEXT/UTF8, eng). *)
Definition one_track : list byte :=
  tracks (track_entry (element [x83] [x11] ++ element [xd7] [x02]
                       ++ element [x86] (bytes_of_string "S_TEXT/UTF8")
                       ++ lang "eng")).

(** The file of the scenario: one track, one Cluster with Timecode 1000 and one
    SimpleBlock of track 2 at relative time 50 carrying "Hello". *)
Definition scenario_file : list byte :=
  ebml_head
  ++ segment (one_track
              ++ cluster (timecode [x03; xe8]
                          ++ simple_block x82 [x00; x32] (bytes_of_string "Hello"))).

(** The scenario with a payload of two spaces. *)
Definition blank_file : list byte :=
  ebml_head
  ++ segment (one_track
              ++ cluster (timecode [x03; xe8]
                          ++ simple_block x82 [x00; x32] (bytes_of_string "  "))).

(** The same payload in the Block of a BlockGroup. *)
Definition blank_group_file : list byte :=
  ebml_head
  ++ segment (one_track
              ++ cluster (timecode [x03; xe8]
                          ++ block_group (block x82 [x00; x32] (bytes_of_string "  ")))).

(** A legacy element "eng" followed by a BCP-47 element "en". *)
Definition legacy_then_bcp47 : list byte := lang "eng" ++ lang_bcp47 "en".

(** A TrackEntry buffer holding a TrackNumber and a codec identifier declared
    with eleven bytes of which two are there; the same buffer ending after
    the identifier of the second element. *)
Definition cut_value : list byte := [xd7; x81; x02; x86; x8b; x53; x5f].
Definition cut_header : list byte := [xd7; x81; x02; x86].

(** A group with a Block of track 2 at relative time 50 carrying "Hello" and
    a BlockDuration of 2000. *)
Definition timed_group : list byte :=
  block x82 [x00; x32] (bytes_of_string "Hello") ++ block_duration [x07; xd0].

(** A group with a Block of track 2 at relative time 50 carrying "Hello",
    then a Block of track 1 at relative time 99. *)
Definition two_block_group : list byte :=
  block x82 [x00; x32] (bytes_of_string "Hello")
  ++ block x81 [x00; x63] (bytes_of_string "other").

(** The scenario with the SimpleBlock before the Timecode, and without any
    Timecode. *)
Definition early_block_file : list byte :=
  ebml_head
  ++ segment (one_track
              ++ cluster (simple_block x82 [x00; x32] (bytes_of_string "Hello")
                          ++ timecode [x03; xe8])).
Definition no_timecode_file : list byte :=
  ebml_head
  ++ segment (one_track
              ++ cluster (simple_block x82 [x00; x32] (bytes_of_string "Hello"))).

(** The content of a Cluster: a SimpleBlock of track 2 ("Hello", relative
    time 50), then the Timecode 1000, then a SimpleBlock of track 2 ("World",
    relative time 60). *)
Definition late_timecode : list byte :=
  simple_block x82 [x00; x32] (bytes_of_string "Hello")
  ++ timecode [x03; xe8]
  ++ simple_block x82 [x00; x3c] (bytes_of_string "World").

(** The scenario with a SimpleBlock of track 1 declared with a size of one
    byte, hence a payload length of -3, before the SimpleBlock of track 2. *)
Definition short_block_file : list byte :=
  ebml_head
  ++ segment (one_track
              ++ cluster (timecode [x03; xe8] ++ element [xa3] [x81]
                          ++ simple_block x82 [x00; x32] (bytes_of_string "Hello"))).

(** The content of that undersized SimpleBlock and what follows it; the same
    with Blocks, as the content of a BlockGroup. *)
Definition short_block : list byte :=
  [x81] ++ simple_block x82 [x00; x32] (bytes_of_string "Hello").
Definition short_group : list byte :=
  element [xa1] [x81] ++ block x82 [x00; x32] (bytes_of_string "Hello").


(** A Segment declared with a hundred bytes: two children of thirty bytes,
    then a child that declares more bytes than the file holds. *)
Definition restart_file : list byte :=
  ebml_head ++ [x18; x53; x80; x67; xe4]
  ++ void (bytes_of_string "123456789012345678901234567890")
  ++ void (bytes_of_string "123456789012345678901234567890")
  ++ [xec; xfe; x00].

(** The scenario file ending with a SimpleBlock of track 1 declared with one
    byte. *)
Definition loop_file : list byte :=
  ebml_head
  ++ segment (one_track ++ cluster (timecode [x03; xe8] ++ element [xa3] [x81])).

(** * The vocabulary of the further properties *)

(** A string that does not begin with white space, and one that neither
    begins nor ends with it. *)
Definition headed (s : pystr) : Prop :=
  match s with
  | [] => True
  | c :: _ => isspace c = false
  end.
Definition trimmed (s : pystr) : Prop := headed s /\ headed (rev s).

(** A cue whose start is not below the least relative timestamp and whose
    end, when it has one, is after its start. *)
Definition well_timed (c : cue) : Prop :=
  -32768 <= cue_start c
  /\ match c with
     | Cue3 s _ e => s < e
     | Cue2 _ _ => True
     end.

(** A cue whose text has no white space around it and, when the cue has an
    end, is not empty. *)
Definition well_worded (c : cue) : Prop :=
  trimmed (cue_text c)
  /\ match c with
     | Cue3 _ x _ => x <> []
     | Cue2 _ _ => True
     end.

(** What the loop of [_handle_group] keeps true of its three variables. *)
Definition group_kept (st : group_state) : Prop :=
  (forall s, txt st = Some s -> trimmed s)
  /\ (forall t, t_rel st = Some t -> -32768 <= t <= 32767)
  /\ (forall d, duration st = Some d -> 0 <= d).

(** The scenario with its block in a BlockGroup that has a BlockDuration of
    2000. *)
Definition timed_group_file : list byte :=
  ebml_head
  ++ segment (one_track
              ++ cluster (timecode [x03; xe8] ++ block_group timed_group)).

(** [passed stop end_ f es f']: from [f] a scan that looks for the element
    [stop] before [end_] passes the children with the identifiers [es], none
    of them [stop], seeking over each by its size, and stands at [f']. *)
Inductive passed (stop end_ : Z) : file -> list Z -> file -> Prop :=
| passed_nil f : passed stop end_ f [] f
| passed_cons f eid sz f1 f2 es f' :
    tell f < end_ ->
    _read_header f = Ok (eid, sz, f1) ->
    eid <> stop ->
    seek_cur sz f1 = Ok f2 ->
    passed stop end_ f2 es f' ->
    passed stop end_ f (eid :: es) f'.

(** The values of the elements with the identifier [eid], in order. *)
Definition values_of (eid : Z) (es : list (Z * list byte)) : list (list byte) :=
  map snd (filter (fun e => fst e =? eid) es).

(** The descriptors of the TrackEntry contents [vs], parsed one after the
    other. *)
Fixpoint parse_entries (fuel : nat) (vs : list (list byte))
  : outcome (list track_info) :=
  match vs with
  | [] => Ok []
  | v :: vs' =>
      info <- _parse_track_entry fuel v;;
      rest <- parse_entries fuel vs';;
      Ok (info :: rest)
  end.

(** The first byte of a TrackType value, 0 for none. *)
Definition first_byte (v : list byte) : Z :=
  match v with
  | b :: _ => byte_val b
  | [] => 0
  end.

(** The field a TrackEntry gets from the elements [eid]: the last of them
    decides, the default stays when there is none. *)
Definition last_value {A} (conv : list byte -> A) (default : A) (eid : Z)
  (es : list (Z * list byte)) : A :=
  match last_of (values_of eid es) with
  | Some v => conv v
  | None => default
  end.

(** A file whose Tracks element holds a video track (type 1, number 1), a
    Void element and the subtitle track of the scenario, with nothing else
    in the Segment. *)
Definition two_tracks : list byte :=
  track_entry (element [x83] [x01] ++ element [xd7] [x01])
  ++ void [x00]
  ++ track_entry (element [x83] [x11] ++ element [xd7] [x02]
                  ++ element [x86] (bytes_of_string "S_TEXT/UTF8")
                  ++ lang "eng").
Definition two_track_file : list byte :=
  ebml_head ++ segment (void [x00; x00] ++ tracks two_tracks).

(** The content of a TrackEntry with two TrackNumber elements (3, then 2),
    a TrackType and two names ("a", then "b"). *)
Definition twice_numbered : list byte :=
  element [xd7] [x03] ++ element [x83] [x11] ++ element [x53; x6e] (bytes_of_string "a")
  ++ element [xd7] [x02] ++ element [x53; x6e] (bytes_of_string "b").
Definition twice_numbered_elements : list (Z * list byte) :=
  [(TRACKNUMBER, [x03]); (TRACKTYPE, [x11]); (TRACKNAME, bytes_of_string "a");
   (TRACKNUMBER, [x02]); (TRACKNAME, bytes_of_string "b")].

(** The content of a TrackEntry with a track number, an empty TrackType
    element and a name. *)
Definition untyped_entry : list byte :=
  element [xd7] [x02] ++ element [x83] [] ++ element [x53; x6e] (bytes_of_string "a").

(** * Lemmas and theorems *)

(** ** Basic facts about outcomes and reads *)

Lemma bind_Ok {A B} (m : outcome A) (k : A -> outcome B) (b : B) :
  bind m k = Ok b -> exists a, m = Ok a /\ k a = Ok b.
Proof. destruct m; simpl; intros H; try discriminate. eauto. Qed.

Lemma Ok_inj {A} (a b : A) : Ok a = Ok b -> a = b.
Proof. congruence. Qed.

(** Splits [Ok (a, b, c) = Ok (a', b', c')] into its equations without
    reducing the components. *)
Ltac ok_inj H :=
  apply Ok_inj in H;
  repeat match type of H with
         | (_, _) = (_, _) =>
             let H' := fresh "E" in
             apply pair_equal_spec in H; destruct H as [H H']
         end.

Ltac inv_bind H :=
  let a := fresh "a" in
  let Hm := fresh "Hm" in
  apply bind_Ok in H; destruct H as [a [Hm H]].

(** Closing a goal on a concrete file by evaluation, and building a
    [group_scanned] derivation there. *)
Ltac by_eval := lazy; first [reflexivity | discriminate].
Ltac scan_group :=
  repeat first
    [ apply gs_end; by_eval
    | eapply gs_hit;
      [by_eval | by_eval | by_eval | by_eval | by_eval | by_eval | by_eval |]
    | eapply gs_miss;
      [by_eval | by_eval | by_eval | by_eval | by_eval | by_eval | by_eval
      | by_eval |]
    | eapply gs_duration; [by_eval | by_eval | by_eval |]
    | eapply gs_other; [by_eval | by_eval | by_eval | by_eval | by_eval |] ].

Lemma read_spec n f bs f' :
  read n f = Ok (bs, f') ->
  tell f <= tell f' /\ kind f' = kind f /\ data f' = data f.
Proof.
  unfold read. intros H.
  assert (T : forall k, Ok (take k f) = Ok (bs, f') ->
                   tell f <= tell f' /\ kind f' = kind f /\ data f' = data f).
  { intros k E. unfold take in E. inversion E; subst.
    unfold tell; simpl. repeat split. lia. }
  destruct (0 <=? n); [eauto|].
  destruct (kind f); eauto.
  destruct (n =? -1); [eauto | discriminate].
Qed.

Lemma read_not_EOFError n f : read n f <> Raise EOFError.
Proof.
  unfold read. destruct (0 <=? n); [discriminate|].
  destruct (kind f); try discriminate. destruct (n =? -1); discriminate.
Qed.

Lemma read_encoded_spec f bs len f' :
  read_encoded f = Ok (bs, len, f') ->
  tell f <= tell f' /\ kind f' = kind f /\ data f' = data f /\ 1 <= len <= 8.
Proof.
  unfold read_encoded. intros H. inv_bind H. destruct a as [b0 f1].
  apply read_spec in Hm. destruct b0 as [|b b0]; [discriminate|].
  destruct (vint_length (byte_val b)) as [l|] eqn:L; [|discriminate].
  inv_bind H. destruct a as [more f2]. apply read_spec in Hm0.
  destruct (Z.of_nat (length more) <? l - 1); [discriminate|].
  inversion H; subst.
  assert (1 <= len <= 8).
  { unfold vint_length in L.
    repeat match type of L with
           | (if ?c then _ else _) = _ => destruct c
           end; inversion L; lia. }
  intuition congruence || lia.
Qed.

Lemma read_size_spec f v len f' :
  read_size f = Ok (v, len, f') ->
  tell f <= tell f' /\ kind f' = kind f /\ data f' = data f /\ 0 <= v.
Proof.
  unfold read_size. intros H. inv_bind H. destruct a as [[bs l] f1].
  apply read_encoded_spec in Hm. destruct Hm as (Ht & Hk & Hd & Hl).
  cbv beta iota in H. ok_inj H. subst.
  repeat split; trivial.
  apply Z.land_nonneg. right. rewrite Z.ones_equiv.
  apply Z.lt_le_pred, Z.pow_pos_nonneg; lia.
Qed.

Lemma read_header_spec f eid sz f' :
  _read_header f = Ok (eid, sz, f') ->
  tell f <= tell f' /\ kind f' = kind f /\ data f' = data f /\ 0 <= sz.
Proof.
  unfold _read_header, read_id. intros H. inv_bind H. destruct a as [[e l] f1].
  inv_bind Hm. destruct a as [[bs l'] f0]. apply read_encoded_spec in Hm0.
  inversion Hm; subst. inv_bind H. destruct a as [[s l2] f2].
  apply read_size_spec in Hm1. inversion H; subst.
  intuition congruence || lia.
Qed.


(** Reads of a non-negative length do not depend on the kind of source. *)

Lemma read_nonneg n f : 0 <= n -> read n f = Ok (take (Z.to_nat n) f).
Proof. intros H. unfold read. apply Z.leb_le in H. now rewrite H. Qed.

Lemma read_as_kind k n f :
  0 <= n -> read n (as_kind k f) = rekind k (read n f).
Proof. intros H. rewrite !read_nonneg by exact H. reflexivity. Qed.

Lemma vint_length_pos b len : vint_length b = Some len -> 1 <= len.
Proof.
  unfold vint_length. intros L.
  repeat match type of L with
         | (if ?c then _ else _) = _ => destruct c
         end; inversion L; lia.
Qed.

Lemma read_encoded_as_kind k f :
  read_encoded (as_kind k f) = rekind k (read_encoded f).
Proof.
  unfold read_encoded. rewrite read_as_kind by lia.
  rewrite (read_nonneg 1 f) by lia.
  destruct (take (Z.to_nat 1) f) as [b0 f1]. cbn [bind rekind].
  destruct b0 as [|b b0]; [reflexivity|].
  destruct (vint_length (byte_val b)) as [len|] eqn:L; [|reflexivity].
  apply vint_length_pos in L.
  rewrite read_as_kind by lia. rewrite (read_nonneg (len - 1) f1) by lia.
  destruct (take (Z.to_nat (len - 1)) f1) as [more f2]. cbn [bind rekind].
  destruct (Z.of_nat (length more) <? len - 1); reflexivity.
Qed.

Lemma read_header_as_kind k f :
  _read_header (as_kind k f) = rekind k (_read_header f).
Proof.
  unfold _read_header, read_id, read_size. rewrite read_encoded_as_kind.
  destruct (read_encoded f) as [[[bs len] f1]| |]; try reflexivity.
  cbn [bind rekind]. rewrite read_encoded_as_kind.
  destruct (read_encoded f1) as [[[bs' len'] f2]| |]; reflexivity.
Qed.

(** ** The scenario of the specification *)

(** C3: on the file whose Segment holds one Tracks element with one TrackEntry
    (type 0x11, track number 2, codec "S_TEXT/UTF8", language "eng") followed
    by one Cluster with Timecode 1000 and one SimpleBlock of track 2 at
    relative time 50 with payload "Hello", the track listing is exactly that
    one descriptor and the extraction for track 2 is exactly [(1050,
    "Hello")], with or without a progress callback. *)
Theorem scenario_tracks_and_cues (n : nat) :
  extract_subtitle_tracks (5 + n) scenario_file
  = Ok [mkinfo 0x11 2 (str_of_string "S_TEXT/UTF8") (str_of_string "eng") []]
  /\ extract_subtitles (3 + n) scenario_file 2 false
     = ([], Ok [Cue2 1050 (str_of_string "Hello")])
  /\ snd (extract_subtitles (3 + n) scenario_file 2 true)
     = Ok [Cue2 1050 (str_of_string "Hello")].
Proof. repeat split; vm_compute; reflexivity. Qed.

(** ** Blocks with blank text *)

(** A SimpleBlock of the requested track yields one cue whatever its text:
    [_handle_block] has no test on [txt]. *)
Lemma handle_block_hit f sz base track vlen f1 tb f2 fl f3 payload f4 :
  read_vint f = Ok (track, vlen, f1) ->
  read 2 f1 = Ok (tb, f2) ->
  read 1 f2 = Ok (fl, f3) ->
  read (sz - vlen - 3) f3 = Ok (payload, f4) ->
  _handle_block f sz base track
  = Ok ([Cue2 (base + int_from_bytes_signed tb) (strip (decode payload))], f4).
Proof.
  intros H1 H2 H3 H4. unfold _handle_block.
  rewrite H1; cbn [bind]. rewrite H2; cbn [bind]. rewrite H3; cbn [bind].
  rewrite Z.eqb_refl, H4. reflexivity.
Qed.

(** A SimpleBlock of another track is passed by a relative seek of the
    computed payload length. *)
Lemma handle_block_miss f sz base track trk vlen f1 tb f2 fl f3 f4 :
  read_vint f = Ok (trk, vlen, f1) ->
  read 2 f1 = Ok (tb, f2) ->
  read 1 f2 = Ok (fl, f3) ->
  trk <> track ->
  seek_cur (sz - vlen - 3) f3 = Ok f4 ->
  _handle_block f sz base track = Ok ([], f4).
Proof.
  intros H1 H2 H3 Ht H4. unfold _handle_block.
  rewrite H1; cbn [bind]. rewrite H2; cbn [bind]. rewrite H3; cbn [bind].
  apply Z.eqb_neq in Ht. rewrite Ht. rewrite H4. reflexivity.
Qed.

(** C2 (the code departs from the claim): a SimpleBlock of the requested
    track whose payload is two spaces yields the cue (1050, "") with empty
    text, where the claim has no cue. *)
Theorem blank_simple_block_emits_cue (n : nat) :
  extract_subtitles (3 + n) blank_file 2 false = ([], Ok [Cue2 1050 []]).
Proof. vm_compute. reflexivity. Qed.

(** The sibling path: the same payload in a BlockGroup yields no cue. *)
Lemma blank_group_emits_nothing (n : nat) :
  extract_subtitles (3 + n) blank_group_file 2 false = ([], Ok []).
Proof. vm_compute. reflexivity. Qed.

(** ** A file without Segment *)

(** C7: when the second top-level element of the file is not the Segment,
    [extract_subtitle_tracks] returns the empty list and [extract_subtitles]
    returns the empty list without any call of the progress callback; neither
    raises. *)
Theorem no_segment_empty_results fuel bs track on_progress e1 h1 f1 f2 eid h2 f3 :
  _read_header (open_file Buffered bs) = Ok (e1, h1, f1) ->
  seek_cur h1 f1 = Ok f2 ->
  _read_header f2 = Ok (eid, h2, f3) ->
  eid <> SEGMENT ->
  extract_subtitle_tracks fuel bs = Ok []
  /\ extract_subtitles fuel bs track on_progress = ([], Ok []).
Proof.
  intros H1 H2 H3 Hne. apply Z.eqb_neq in Hne.
  assert (B : _extract_subtitles_from fuel (open_file Buffered bs) track on_progress
              = ([], Ok ([], f3))).
  { unfold _extract_subtitles_from. rewrite H1; cbn [bind]. rewrite H2; cbn [bind].
    rewrite H3; cbn [bind]. rewrite Hne. reflexivity. }
  split.
  - unfold extract_subtitle_tracks. cbv zeta. rewrite H1; cbn [bind].
    rewrite H2; cbn [bind]. rewrite H3; cbn [bind]. rewrite Hne. reflexivity.
  - unfold extract_subtitles. rewrite B. destruct bs as [|b bs]; [reflexivity|].
    change (open_file Mmap (b :: bs)) with (as_kind Mmap (open_file Buffered (b :: bs))).
    unfold _extract_subtitles_from at 1.
    rewrite read_header_as_kind, H1. simpl bind.
    pose proof (read_header_spec _ _ _ _ H1) as (_ & K1 & _ & _).
    assert (P2 : f2 = set_pos f1 (pos f1 + h1)).
    { unfold seek_cur, seek_set in H2. rewrite K1 in H2. simpl in H2.
      destruct (pos f1 + h1 <? 0); congruence. }
    unfold seek_cur at 1, seek_set. simpl kind.
    destruct ((pos (as_kind Mmap f1) + h1 <? 0)
              || (size (as_kind Mmap f1) <? pos (as_kind Mmap f1) + h1));
      [reflexivity|].
    simpl bind.
    change (set_pos (as_kind Mmap f1) (pos f1 + h1))
      with (as_kind Mmap (set_pos f1 (pos f1 + h1))).
    rewrite <- P2, read_header_as_kind, H3. cbn [bind rekind].
    rewrite Hne. reflexivity.
Qed.

Lemma no_segment_empty_results_witness :
  extract_subtitle_tracks 1 (ebml_head ++ void [x00]) = Ok []
  /\ extract_subtitles 1 (ebml_head ++ void [x00]) 2 true = ([], Ok []).
Proof.
  eapply (no_segment_empty_results 1 (ebml_head ++ void [x00]) 2 true);
    [ vm_compute; reflexivity | vm_compute; reflexivity
    | vm_compute; reflexivity | vm_compute; discriminate ].
Defined.

(** ** Scans of an in-memory buffer *)

Lemma track_entry_loop_scanned buf es :
  scanned buf es ->
  forall n info, (length es < n)%nat ->
  track_entry_loop n buf info = set_fields info es.
Proof.
  induction 1 as [buf H | buf eid sz buf1 v buf2 es H Hr _ IH];
    intros [|n] info Hn; simpl in Hn; try lia.
  - simpl. now rewrite H.
  - cbn [track_entry_loop set_fields]. rewrite H, Hr. cbn [bind].
    destruct (set_field info eid v) as [info'| |]; cbn [bind]; trivial.
    apply IH. lia.
Qed.

Lemma set_field_ok info eid v :
  (eid = TRACKTYPE -> v <> []) -> exists info', set_field info eid v = Ok info'.
Proof.
  intros Hv. unfold set_field.
  destruct (eid =? TRACKTYPE) eqn:E.
  - apply Z.eqb_eq in E. destruct v; [now elim (Hv E) | eauto].
  - repeat match goal with
           | |- context [if ?c then _ else _] => destruct c
           end; eauto.
Qed.

Lemma set_fields_ok es : typed es ->
  forall info, exists info', set_fields info es = Ok info'.
Proof.
  induction 1 as [|[eid v] es Hv _ IH]; intros info; simpl; [eauto|].
  destruct (set_field_ok info eid v Hv) as [i1 E1]. rewrite E1. simpl. apply IH.
Qed.

Lemma set_fields_app info pre post :
  set_fields info (pre ++ post) = (i <- set_fields info pre;; set_fields i post).
Proof.
  revert info. induction pre as [|[eid v] pre IH]; intros info; simpl; trivial.
  destruct (set_field info eid v); simpl; trivial.
Qed.

(** *** Language resolution *)

Lemma set_field_language info eid v info' :
  set_field info eid v = Ok info' ->
  language info'
  = if eid =? LANG_BCP47 then decode v
    else if (eid =? LANG) && negb (nonempty (language info)) then decode v
    else language info.
Proof.
  unfold set_field. intros H.
  destruct (eid =? TRACKTYPE) eqn:E1.
  { apply Z.eqb_eq in E1. subst eid. destruct v; [discriminate|].
    ok_inj H. subst. reflexivity. }
  destruct (eid =? TRACKNUMBER) eqn:E2.
  { apply Z.eqb_eq in E2. subst eid. ok_inj H. subst. reflexivity. }
  destruct (eid =? CODECID) eqn:E3.
  { apply Z.eqb_eq in E3. subst eid. ok_inj H. subst. reflexivity. }
  destruct (eid =? LANG_BCP47) eqn:E4.
  { ok_inj H. subst. reflexivity. }
  destruct ((eid =? LANG) && negb (nonempty (language info))) eqn:E5.
  { ok_inj H. subst. reflexivity. }
  destruct (eid =? TRACKNAME); ok_inj H; subst; reflexivity.
Qed.

Lemma language_without_bcp47 es :
  Forall not_bcp47 es ->
  forall info info', set_fields info es = Ok info' ->
  language info' = first_nonempty (language info :: legacy_values es).
Proof.
  induction 1 as [|[eid v] es Hb _ IH]; intros info info' H; simpl in H.
  - ok_inj H. subst. simpl. destruct (language info'); reflexivity.
  - inv_bind H. rewrite (IH _ _ H). apply set_field_language in Hm.
    unfold not_bcp47 in Hb. simpl in Hb. apply Z.eqb_neq in Hb.
    rewrite Hb in Hm. unfold legacy_values. cbn [filter fst snd].
    destruct (eid =? LANG); cbn [andb map snd] in *.
    + destruct (nonempty (language info)) eqn:N; cbn [negb] in Hm;
        rewrite Hm; cbn [first_nonempty]; rewrite ?N; reflexivity.
    + rewrite Hm. reflexivity.
Qed.

(** C4 (amended): in every TrackEntry a BCP-47 language element sets the
    language field whatever it held before, and a legacy language element
    sets it only while it is empty.  So the reported language is the first
    non-empty value among the last BCP-47 element and the legacy elements
    that follow it, whatever precedes that BCP-47 element; without any BCP-47
    element it is the first non-empty legacy value. *)
Theorem language_resolution fuel bs es :
  scanned (open_file BytesIO bs) es ->
  (length es < fuel)%nat ->
  typed es ->
  exists info,
    _parse_track_entry fuel bs = Ok info
    /\ (forall pre v post,
           es = pre ++ (LANG_BCP47, v) :: post -> Forall not_bcp47 post ->
           language info = first_nonempty (decode v :: legacy_values post))
    /\ (Forall not_bcp47 es -> language info = first_nonempty (legacy_values es)).
Proof.
  intros Hs Hn Ht. unfold _parse_track_entry.
  rewrite (track_entry_loop_scanned _ _ Hs) by exact Hn.
  destruct (set_fields_ok es Ht info0) as [info E]. exists info.
  split; [exact E|]. split.
  - intros pre v post -> Hpost. rewrite set_fields_app in E. inv_bind E.
    simpl in E. rewrite (language_without_bcp47 _ Hpost _ _ E). reflexivity.
  - intros Hall. rewrite (language_without_bcp47 _ Hall _ _ E). reflexivity.
Qed.

Lemma language_resolution_witness :
  exists info,
    _parse_track_entry 3 legacy_then_bcp47 = Ok info
    /\ (forall pre v post,
           [(LANG, bytes_of_string "eng"); (LANG_BCP47, bytes_of_string "en")]
           = pre ++ (LANG_BCP47, v) :: post -> Forall not_bcp47 post ->
           language info = first_nonempty (decode v :: legacy_values post))
    /\ (Forall not_bcp47
          [(LANG, bytes_of_string "eng"); (LANG_BCP47, bytes_of_string "en")] ->
        language info
        = first_nonempty
            (legacy_values
               [(LANG, bytes_of_string "eng"); (LANG_BCP47, bytes_of_string "en")])).
Proof.
  apply (language_resolution 3 legacy_then_bcp47).
  - eapply scanned_elem; [lazy; reflexivity | lazy; reflexivity |].
    eapply scanned_elem; [lazy; reflexivity | lazy; reflexivity |].
    apply scanned_end. lazy. reflexivity.
  - simpl. lia.
  - repeat constructor; simpl; intros; discriminate.
Defined.

(** C4 (the claim as stated fails): the legacy element comes first with the
    non-empty value "eng", and the later BCP-47 element overwrites it. *)
Lemma legacy_language_overwritten :
  exists info,
    _parse_track_entry 3 legacy_then_bcp47 = Ok info
    /\ language info = str_of_string "en"
    /\ language info <> str_of_string "eng".
Proof.
  eexists. split; [vm_compute; reflexivity|]. split; [reflexivity|discriminate].
Qed.

(** ** Truncated input *)

Lemma set_field_not_EOFError info eid v : set_field info eid v <> Raise EOFError.
Proof.
  unfold set_field.
  repeat match goal with
         | |- context [if ?c then _ else _] => destruct c
         | |- context [match ?v with [] => _ | _ :: _ => _ end] => destruct v
         end; discriminate.
Qed.

Lemma track_entry_loop_not_EOFError n :
  forall buf info, track_entry_loop n buf info <> Raise EOFError.
Proof.
  induction n as [|n IH]; intros buf info; simpl; [discriminate|].
  destruct (_read_header buf) as [[[eid sz] buf1]|[]|]; try discriminate.
  pose proof (read_not_EOFError sz buf1) as R.
  destruct (read sz buf1) as [[v buf2]|e|]; cbn [bind];
    [|congruence|discriminate].
  pose proof (set_field_not_EOFError info eid v) as S.
  destruct (set_field info eid v) as [info'|e|]; cbn [bind];
    [apply IH|congruence|discriminate].
Qed.

Lemma tracks_loop_not_EOFError fuel n :
  forall buf out, tracks_loop n fuel buf out <> Raise EOFError.
Proof.
  induction n as [|n IH]; intros buf out; simpl; [discriminate|].
  destruct (_read_header buf) as [[[eid sz] buf1]|[]|]; try discriminate.
  pose proof (read_not_EOFError sz buf1) as R.
  destruct (read sz buf1) as [[v buf2]|e|]; cbn [bind];
    [|congruence|discriminate].
  destruct (eid =? TRACKENTRY); [|apply IH].
  unfold _parse_track_entry.
  pose proof (track_entry_loop_not_EOFError fuel (open_file BytesIO v) info0) as T.
  destruct (track_entry_loop fuel (open_file BytesIO v) info0) as [info|e|];
    cbn [bind]; [apply IH|congruence|discriminate].
Qed.

(** A read that delivers fewer bytes than asked has reached the end. *)
Lemma read_short n f v f' :
  0 <= tell f -> read n f = Ok (v, f') -> Z.of_nat (length v) < n ->
  remaining f' = [].
Proof.
  unfold tell. intros Hp H Hs. rewrite read_nonneg in H by lia.
  unfold take in H. ok_inj H. subst.
  rewrite length_firstn in Hs.
  assert (L : (length (remaining f) < Z.to_nat n)%nat) by lia.
  clear Hs. rewrite firstn_all2 by lia.
  unfold remaining in *. rewrite length_skipn in *.
  apply skipn_all2. cbn [set_pos data pos]. lia.
Qed.

Lemma read_header_at_end f : remaining f = [] -> _read_header f = Raise EOFError.
Proof.
  intros H. unfold _read_header, read_id, read_encoded.
  rewrite read_nonneg by lia. unfold take. rewrite H. reflexivity.
Qed.

(** C9 (amended): inside the Tracks body and inside a TrackEntry, a header
    cut by the end of the buffer ends the scan loop with what was gathered,
    an element whose value is cut short is taken as far as it goes, and no
    end-of-input error ever leaves [_parse_track_entry] or [_parse_tracks].
    Among the children of the Segment, in both entry points, and in the
    track-number vint of a SimpleBlock, the end-of-input error of the reader
    is not caught: it propagates to the caller. *)
Theorem truncation_handling n fuel buf info out eid sz buf1 buf2 v buf3
  f end_ track on_progress seg_start seg_end subs last log blk bsz base :
  _read_header buf = Raise EOFError ->
  0 <= tell buf1 ->
  _read_header buf1 = Ok (eid, sz, buf2) ->
  read sz buf2 = Ok (v, buf3) ->
  Z.of_nat (length v) < sz ->
  _read_header f = Raise EOFError ->
  tell f < end_ -> tell f < seg_end ->
  read_vint blk = Raise EOFError ->
  track_entry_loop (S n) buf info = Ok info
  /\ tracks_loop (S n) fuel buf out = Ok out
  /\ track_entry_loop (S (S n)) buf1 info = set_field info eid v
  /\ (forall bs, _parse_track_entry fuel bs <> Raise EOFError
                 /\ _parse_tracks fuel bs <> Raise EOFError)
  /\ find_tracks (S n) fuel f end_ = Raise EOFError
  /\ segment_loop (S n) fuel f track on_progress seg_start seg_end subs last log
     = (log, Raise EOFError)
  /\ _handle_block blk bsz base track = Raise EOFError.
Proof.
  intros Hb Hp Hh Hr Hshort Hf He Hs Hv.
  apply Z.ltb_lt in He, Hs.
  assert (Hb3 : _read_header buf3 = Raise EOFError).
  { apply read_header_at_end, (read_short sz buf2 v); trivial.
    apply read_header_spec in Hh. lia. }
  repeat split.
  - simpl. now rewrite Hb.
  - simpl. now rewrite Hb.
  - cbn [track_entry_loop]. rewrite Hh, Hr. cbn [bind]. rewrite Hb3.
    destruct (set_field info eid v); reflexivity.
  - apply track_entry_loop_not_EOFError.
  - apply tracks_loop_not_EOFError.
  - simpl. now rewrite He, Hf.
  - simpl. now rewrite Hs, Hf.
  - unfold _handle_block. now rewrite Hv.
Qed.

Lemma truncation_handling_witness :
  track_entry_loop 1 (mkfile BytesIO cut_header 3) info0 = Ok info0
  /\ tracks_loop 1 5 (mkfile BytesIO cut_header 3) [] = Ok []
  /\ track_entry_loop 2 (mkfile BytesIO cut_value 3) info0
     = set_field info0 CODECID [x53; x5f]
  /\ (forall bs, _parse_track_entry 5 bs <> Raise EOFError
                 /\ _parse_tracks 5 bs <> Raise EOFError)
  /\ find_tracks 1 5 (mkfile Buffered cut_header 3) 20 = Raise EOFError
  /\ segment_loop 1 5 (mkfile Buffered cut_header 3) 2 true 0 20 [] (-1) []
     = ([], Raise EOFError)
  /\ _handle_block (mkfile Buffered cut_header 4) 9 0 2 = Raise EOFError.
Proof.
  apply (truncation_handling 0 5 (mkfile BytesIO cut_header 3) info0 []
           CODECID 11 (mkfile BytesIO cut_value 3) (mkfile BytesIO cut_value 5)
           [x53; x5f] (mkfile BytesIO cut_value 7)
           (mkfile Buffered cut_header 3) 20 2 true 0 20 [] (-1) []
           (mkfile Buffered cut_header 4) 9 0);
    try (vm_compute; reflexivity); simpl; lia.
Defined.

(** C9 (the claim as stated fails): the scenario file cut after 40 bytes ends
    in the middle of the codec identifier of its TrackEntry; the track listing
    raises nothing and returns a descriptor with the part that was read. *)
Lemma truncated_track_entry_accepted :
  extract_subtitle_tracks 5 (firstn 40 scenario_file)
  = Ok [mkinfo 0x11 2 (str_of_string "S_TE") [] []]
  /\ forall e, extract_subtitle_tracks 5 (firstn 40 scenario_file) <> Raise e.
Proof.
  assert (E : extract_subtitle_tracks 5 (firstn 40 scenario_file)
              = Ok [mkinfo 0x11 2 (str_of_string "S_TE") [] []])
    by (vm_compute; reflexivity).
  split; [exact E|]. intros e. rewrite E. discriminate.
Qed.

(** ** BlockGroups *)

Lemma group_loop_scanned end_ track f cs f' :
  group_scanned end_ track f cs f' ->
  forall n st, (length cs < n)%nat ->
  group_loop n f end_ track st = Ok (fold_left group_step cs st, f').
Proof.
  induction 1 as
    [ f He
    | f s f1 vlen f2 tb f3 fl f4 payload f5 t cs f' Ht Hh Hv H2 <- H1 Hp _ IH
    | f s f1 trk vlen f2 tb f3 fl f4 f5 t cs f' Ht Hh Hv H2 <- H1 Hne Hs _ IH
    | f s f1 d f2 cs f' Ht Hh Hr _ IH
    | f eid s f1 f2 cs f' Ht Hh Hb Hd Hs _ IH ];
    intros [|n] st Hn; simpl in Hn; try lia; cbn [group_loop fold_left].
  - apply Z.ltb_ge in He. now rewrite He.
  - apply Z.ltb_lt in Ht. rewrite Ht, Hh. cbn [bind]. rewrite Z.eqb_refl.
    rewrite Hv. cbn [bind]. rewrite H2. cbn [bind]. rewrite H1. cbn [bind].
    rewrite Z.eqb_refl, Hp. cbn [bind]. apply IH. lia.
  - apply Z.ltb_lt in Ht. rewrite Ht, Hh. cbn [bind]. rewrite Z.eqb_refl.
    rewrite Hv. cbn [bind]. rewrite H2. cbn [bind]. rewrite H1. cbn [bind].
    apply Z.eqb_neq in Hne. rewrite Hne, Hs. cbn [bind]. apply IH. lia.
  - apply Z.ltb_lt in Ht. rewrite Ht, Hh. cbn [bind].
    change (BLOCKDUR =? BLOCK) with false. rewrite Z.eqb_refl.
    rewrite Hr. cbn [bind]. apply IH. lia.
  - apply Z.ltb_lt in Ht. rewrite Ht, Hh. cbn [bind].
    apply Z.eqb_neq in Hb, Hd. rewrite Hb, Hd, Hs. cbn [bind]. apply IH. lia.
Qed.

Lemma last_after_app {A} (d : option A) l1 l2 :
  last_after d (l1 ++ l2) = last_after (last_after d l1) l2.
Proof. apply fold_left_app. Qed.

Lemma group_fold cs : forall st,
  txt (fold_left group_step cs st) = last_after (txt st) (hit_texts cs)
  /\ t_rel (fold_left group_step cs st) = last_after (t_rel st) (block_times cs)
  /\ duration (fold_left group_step cs st) = last_after (duration st) (durations cs).
Proof.
  induction cs as [|c cs IH]; intros st; [repeat split|].
  cbn [fold_left]. destruct (IH (group_step st c)) as (E1 & E2 & E3).
  rewrite E1, E2, E3. destruct c; repeat split.
Qed.

Lemma handle_group_scanned fuel f sz base track cs f' :
  group_scanned (tell f + sz) track f cs f' ->
  (length cs < fuel)%nat ->
  _handle_group fuel f sz base track
  = Ok (group_cues base (mkgroup (last_of (hit_texts cs)) (last_of (block_times cs))
                                 (last_of (durations cs))), f').
Proof.
  intros Hs Hn. unfold _handle_group. cbv zeta.
  rewrite (group_loop_scanned _ _ _ _ _ Hs) by exact Hn. cbn [bind].
  destruct (group_fold cs group0) as (E1 & E2 & E3).
  unfold group_cues. rewrite E1, E2, E3. reflexivity.
Qed.

Lemma nonempty_true (s : pystr) : s <> [] -> nonempty s = true.
Proof. destruct s; [congruence | reflexivity]. Qed.

(** C5: in every BlockGroup where a Block of the requested track gave a
    (non-empty) text [s] and a relative timestamp [t] was recorded, exactly
    one cue is emitted: the 3-tuple (base+t, s, base+t+d) when a BlockDuration
    was read and its value [d] is not zero, the 2-tuple (base+t, s) when no
    BlockDuration was read or its value is zero.  When no Block of the
    requested track was found, or its text is empty after trimming, nothing is
    emitted for the group. *)
Theorem group_cue_shape fuel f sz base track cs f' :
  group_scanned (tell f + sz) track f cs f' ->
  (length cs < fuel)%nat ->
  (forall s t,
      last_of (hit_texts cs) = Some s -> s <> [] ->
      last_of (block_times cs) = Some t ->
      (forall d, last_of (durations cs) = Some d -> d <> 0 ->
                 _handle_group fuel f sz base track
                 = Ok ([Cue3 (base + t) s (base + t + d)], f'))
      /\ (last_of (durations cs) = None \/ last_of (durations cs) = Some 0 ->
          _handle_group fuel f sz base track = Ok ([Cue2 (base + t) s], f')))
  /\ (last_of (hit_texts cs) = None \/ last_of (hit_texts cs) = Some [] ->
      _handle_group fuel f sz base track = Ok ([], f')).
Proof.
  intros Hs Hn. rewrite (handle_group_scanned _ _ _ _ _ _ _ Hs Hn).
  unfold group_cues. cbn [txt t_rel duration]. split.
  - intros s t E1 Hne E2. rewrite E1, E2, (nonempty_true s Hne). split.
    + intros d E3 Hd. rewrite E3. apply Z.eqb_neq in Hd. now rewrite Hd.
    + intros [E3|E3]; rewrite E3; reflexivity.
  - intros [E|E]; rewrite E; [reflexivity|].
    destruct (last_of (block_times cs)); reflexivity.
Qed.

(** C10: in every BlockGroup the start time of the emitted cue is the base
    plus the relative timestamp of the last Block child scanned, of whatever
    track, and its text is that of the last Block of the requested track; in
    particular a Block of the requested track followed by a Block of another
    track yields a cue that starts at the timestamp of the latter. *)
Theorem group_time_from_last_block fuel f sz base track cs f' :
  group_scanned (tell f + sz) track f cs f' ->
  (length cs < fuel)%nat ->
  (forall s t,
      last_of (hit_texts cs) = Some s -> s <> [] ->
      last_of (block_times cs) = Some t ->
      exists c, _handle_group fuel f sz base track = Ok ([c], f')
                /\ cue_start c = base + t /\ cue_text c = s)
  /\ (forall pre t1 p trk t2,
         cs = pre ++ [Hit t1 p; Miss trk t2] -> strip (decode p) <> [] ->
         exists c, _handle_group fuel f sz base track = Ok ([c], f')
                   /\ cue_start c = base + t2 /\ cue_text c = strip (decode p)).
Proof.
  intros Hs Hn.
  assert (G : forall s t,
             last_of (hit_texts cs) = Some s -> s <> [] ->
             last_of (block_times cs) = Some t ->
             exists c, _handle_group fuel f sz base track = Ok ([c], f')
                       /\ cue_start c = base + t /\ cue_text c = s).
  { intros s t E1 Hne E2. rewrite (handle_group_scanned _ _ _ _ _ _ _ Hs Hn).
    unfold group_cues. cbn [txt t_rel duration].
    rewrite E1, E2, (nonempty_true s Hne).
    destruct (last_of (durations cs)) as [d|]; [destruct (d =? 0)|];
      eexists; repeat split. }
  split; [exact G|].
  intros pre t1 p trk t2 -> Hne. apply G; trivial.
  - unfold last_of, hit_texts. rewrite flat_map_app, last_after_app. reflexivity.
  - unfold last_of, block_times. rewrite flat_map_app, last_after_app. reflexivity.
Qed.

Lemma group_cue_shape_witness :
  _handle_group 3 (open_file Buffered timed_group) 15 1000 2
  = Ok ([Cue3 1050 (str_of_string "Hello") 3050], mkfile Buffered timed_group 15).
Proof.
  destruct (group_cue_shape 3 (open_file Buffered timed_group) 15 1000 2
              [Hit 50 (bytes_of_string "Hello"); Duration [x07; xd0]]
              (mkfile Buffered timed_group 15)) as [T _];
    [scan_group | simpl; lia |].
  destruct (T (str_of_string "Hello") 50) as [T3 _];
    [reflexivity | discriminate | reflexivity |].
  apply (T3 2000); [reflexivity | discriminate].
Defined.

Lemma group_time_from_last_block_witness :
  exists c,
    _handle_group 3 (open_file Buffered two_block_group) 22 1000 2
    = Ok ([c], mkfile Buffered two_block_group 22)
    /\ cue_start c = 1000 + 99 /\ cue_text c = str_of_string "Hello".
Proof.
  destruct (group_time_from_last_block 3 (open_file Buffered two_block_group)
              22 1000 2 [Hit 50 (bytes_of_string "Hello"); Miss 1 99]
              (mkfile Buffered two_block_group 22)) as [_ T];
    [scan_group | simpl; lia |].
  apply (T [] 50 (bytes_of_string "Hello") 1 99); [reflexivity | discriminate].
Defined.

(** ** Clusters *)

Lemma read_cluster_time_skipped end_ f es f' :
  skipped end_ f es f' ->
  forall n, _read_cluster_time (length es + n) f end_ = _read_cluster_time n f' end_.
Proof.
  induction 1 as [f | f eid sz f1 f2 es f' Ht Hh Hne Hs _ IH]; intros n;
    [reflexivity|].
  cbn [length Nat.add _read_cluster_time].
  apply Z.ltb_lt in Ht. apply Z.eqb_neq in Hne.
  rewrite Ht, Hh. cbn [bind]. rewrite Hne, Hs. cbn [bind]. apply IH.
Qed.

(** C1 (amended): in every Cluster the children that precede the first
    Timecode element, SimpleBlocks and BlockGroups included, are skipped by
    their size and never processed as blocks; the blocks are scanned from the
    position after the Timecode, with its value as base, so that a SimpleBlock
    of the requested track that follows the Timecode gives the cue (Timecode
    + relative time, text). *)
Theorem cluster_scan_starts_after_timecode fuel f sz track pre f1 s f2 v f3 :
  skipped (tell f + sz) f pre f1 ->
  (length pre < fuel)%nat ->
  tell f1 < tell f + sz ->
  _read_header f1 = Ok (TIMECODE, s, f2) ->
  read s f2 = Ok (v, f3) ->
  _parse_cluster fuel f sz track
  = cluster_loop fuel fuel f3 (tell f + sz) (int_from_bytes v) track []
  /\ (forall bsz b0 vlen b1 tb b2 fl b3 payload b4,
         tell f3 < tell f + sz ->
         _read_header f3 = Ok (SIMPLEBLK, bsz, b0) ->
         read_vint b0 = Ok (track, vlen, b1) ->
         read 2 b1 = Ok (tb, b2) ->
         read 1 b2 = Ok (fl, b3) ->
         read (bsz - vlen - 3) b3 = Ok (payload, b4) ->
         _parse_cluster fuel f sz track
         = cluster_loop (fuel - 1) fuel b4 (tell f + sz) (int_from_bytes v) track
             [Cue2 (int_from_bytes v + int_from_bytes_signed tb)
                   (strip (decode payload))]).
Proof.
  intros Hs Hn Ht Hh Hr.
  assert (E : _parse_cluster fuel f sz track
              = cluster_loop fuel fuel f3 (tell f + sz) (int_from_bytes v) track []).
  { unfold _parse_cluster. cbv zeta.
    replace (_read_cluster_time fuel f (tell f + sz))
      with (_read_cluster_time (S (fuel - length pre - 1)) f1 (tell f + sz))
      by (rewrite <- (read_cluster_time_skipped _ _ _ _ Hs); f_equal; lia).
    cbn [_read_cluster_time]. apply Z.ltb_lt in Ht. rewrite Ht, Hh. cbn [bind].
    rewrite Z.eqb_refl, Hr. reflexivity. }
  split; [exact E|].
  intros bsz b0 vlen b1 tb b2 fl b3 payload b4 Hb Hbh Hv H2 H1 Hp.
  rewrite E. destruct fuel as [|n]; [lia|].
  replace (S n - 1)%nat with n by lia. cbn [cluster_loop].
  apply Z.ltb_lt in Hb. rewrite Hb, Hbh. cbn [bind]. rewrite Z.eqb_refl.
  rewrite (handle_block_hit _ _ _ _ _ _ _ _ _ _ _ _ Hv H2 H1 Hp). reflexivity.
Qed.

Lemma cluster_scan_starts_after_timecode_witness :
  _parse_cluster 3 (open_file Buffered late_timecode) 26 2
  = Ok ([Cue2 1060 (str_of_string "World")], mkfile Buffered late_timecode 26).
Proof.
  destruct (cluster_scan_starts_after_timecode 3
              (open_file Buffered late_timecode) 26 2 [SIMPLEBLK]
              (mkfile Buffered late_timecode 11) 2
              (mkfile Buffered late_timecode 13) [x03; xe8]
              (mkfile Buffered late_timecode 15)) as [_ T].
  - eapply sk_cons; [by_eval | by_eval | by_eval | by_eval | apply sk_nil].
  - simpl. lia.
  - by_eval.
  - by_eval.
  - by_eval.
  - rewrite (T 9 (mkfile Buffered late_timecode 17) 1
               (mkfile Buffered late_timecode 18) [x00; x3c]
               (mkfile Buffered late_timecode 20) [x00]
               (mkfile Buffered late_timecode 21) (bytes_of_string "World")
               (mkfile Buffered late_timecode 26)); by_eval.
Defined.

(** In a Cluster without Timecode the search runs to the end of the Cluster
    and its default base 0 reaches no block: the Cluster yields no cue. *)
Lemma cluster_without_timecode fuel f sz track pre f1 :
  skipped (tell f + sz) f pre f1 ->
  (length pre < fuel)%nat ->
  tell f + sz <= tell f1 ->
  _parse_cluster fuel f sz track = Ok ([], f1).
Proof.
  intros Hs Hn He. unfold _parse_cluster. cbv zeta.
  replace (_read_cluster_time fuel f (tell f + sz))
    with (_read_cluster_time (S (fuel - length pre - 1)) f1 (tell f + sz))
    by (rewrite <- (read_cluster_time_skipped _ _ _ _ Hs); f_equal; lia).
  cbn [_read_cluster_time]. apply Z.ltb_ge in He. rewrite He. cbn [bind].
  destruct fuel; [lia|]. cbn [cluster_loop]. now rewrite He.
Qed.

(** C1 (the claim as stated fails): a SimpleBlock of the requested track that
    precedes the Timecode of its Cluster, or sits in a Cluster without
    Timecode, does not become the cue (50, "Hello") of base 0: the extraction
    returns no cue at all. *)
Lemma block_before_timecode_dropped :
  extract_subtitles 5 early_block_file 2 false = ([], Ok [])
  /\ extract_subtitles 5 no_timecode_file 2 false = ([], Ok [])
  /\ ~ In (Cue2 (0 + 50) (str_of_string "Hello")) [].
Proof. repeat split; try (vm_compute; reflexivity). intros []. Qed.

(** ** Blocks whose declared size is too small *)

(** C8 (amended): for a SimpleBlock or a Block whose declared size makes the
    payload length negative, no corrupt-element error is raised.  A
    SimpleBlock of another track is passed by a seek of the negative length,
    backwards, and the scan goes on without a cue; a Block of another track
    is passed by an absolute seek to its start plus its size.  For a block of
    the requested track the code calls [read] with the negative length: a
    memory map (and any source when the length is -1) delivers everything up
    to its end, which becomes the text; a buffered file raises [ValueError]
    for a length below -1. *)
Theorem negative_payload_length f sz base track trk vlen f1 tb f2 fl f3
  n end_ st g s g1 gtrk gvlen g2 gtb g3 gfl g4 :
  read_vint f = Ok (trk, vlen, f1) ->
  read 2 f1 = Ok (tb, f2) ->
  read 1 f2 = Ok (fl, f3) ->
  sz - vlen - 3 < 0 ->
  kind f3 <> BytesIO ->
  0 <= tell f3 + (sz - vlen - 3) ->
  tell f3 <= size f3 ->
  tell g < end_ ->
  _read_header g = Ok (BLOCK, s, g1) ->
  read_vint g1 = Ok (gtrk, gvlen, g2) ->
  read 2 g2 = Ok (gtb, g3) ->
  read 1 g3 = Ok (gfl, g4) ->
  s - gvlen - 3 < 0 ->
  (trk <> track ->
   _handle_block f sz base track
   = Ok ([], set_pos f3 (tell f3 + (sz - vlen - 3))))
  /\ (trk = track -> kind f3 = Mmap \/ sz - vlen - 3 = -1 ->
      _handle_block f sz base track
      = Ok ([Cue2 (base + int_from_bytes_signed tb) (strip (decode (remaining f3)))],
            set_pos f3 (tell f3 + Z.of_nat (length (remaining f3)))))
  /\ (trk = track -> kind f3 = Buffered -> sz - vlen - 3 < -1 ->
      _handle_block f sz base track = Raise ValueError)
  /\ (gtrk <> track ->
      group_loop (S n) g end_ track st
      = (g5 <- seek_set (tell g1 + s) g4;;
         group_loop n g5 end_ track
           (mkgroup (txt st) (Some (int_from_bytes_signed gtb)) (duration st))))
  /\ (gtrk = track ->
      group_loop (S n) g end_ track st
      = ('(payload, g5) <- read (s - gvlen - 3) g4;;
         group_loop n g5 end_ track
           (mkgroup (Some (strip (decode payload)))
                    (Some (int_from_bytes_signed gtb)) (duration st)))).
Proof.
  intros Hv H2 H1 Hneg Hk Hlo Hhi Gt Gh Gv G2 G1 _. unfold tell in Hlo, Hhi.
  assert (Hnb : (0 <=? sz - vlen - 3) = false) by (apply Z.leb_gt; lia).
  assert (Gstep : forall b,
             (gtrk =? track) = b ->
             group_loop (S n) g end_ track st
             = if b
               then ('(payload, g5) <- read (s - gvlen - 3) g4;;
                     group_loop n g5 end_ track
                       (mkgroup (Some (strip (decode payload)))
                                (Some (int_from_bytes_signed gtb)) (duration st)))
               else (g5 <- seek_set (tell g1 + s) g4;;
                     group_loop n g5 end_ track
                       (mkgroup (txt st) (Some (int_from_bytes_signed gtb))
                                (duration st)))).
  { intros b Eb. cbn [group_loop]. apply Z.ltb_lt in Gt. rewrite Gt, Gh.
    cbn [bind]. rewrite Z.eqb_refl, Gv. cbn [bind]. rewrite G2. cbn [bind].
    rewrite G1. cbn [bind]. rewrite Eb. reflexivity. }
  repeat split.
  - intros Hne. apply (handle_block_miss _ _ _ _ _ _ _ _ _ _ _ _ Hv H2 H1 Hne).
    unfold seek_cur, seek_set, tell.
    assert (L : (pos f3 + (sz - vlen - 3) <? 0) = false) by (apply Z.ltb_ge; lia).
    assert (U : (size f3 <? pos f3 + (sz - vlen - 3)) = false)
      by (apply Z.ltb_ge; lia).
    destruct (kind f3); [now rewrite L, U | now rewrite L | congruence].
  - intros -> Hm.
    assert (R : read (sz - vlen - 3) f3
                = Ok (remaining f3,
                      set_pos f3 (tell f3 + Z.of_nat (length (remaining f3))))).
    { unfold read. rewrite Hnb. unfold take. rewrite firstn_all.
      destruct (kind f3); trivial.
      destruct Hm as [Hm|Hm]; [discriminate|]. rewrite Hm. reflexivity. }
    apply (handle_block_hit _ _ _ _ _ _ _ _ _ _ _ _ Hv H2 H1 R).
  - intros -> Hb Hlt. unfold _handle_block.
    rewrite Hv; cbn [bind]. rewrite H2; cbn [bind]. rewrite H1; cbn [bind].
    rewrite Z.eqb_refl. unfold read. rewrite Hnb, Hb.
    assert (E : (sz - vlen - 3 =? -1) = false) by (apply Z.eqb_neq; lia).
    now rewrite E.
  - intros Hne. apply Z.eqb_neq in Hne. apply (Gstep false Hne).
  - intros ->. apply (Gstep true (Z.eqb_refl _)).
Qed.

Lemma negative_payload_length_witness :
  _handle_block (open_file Mmap short_block) 1 1000 2
  = Ok ([], mkfile Mmap short_block 1).
Proof.
  destruct (negative_payload_length (open_file Mmap short_block) 1 1000 2 1 1
              (mkfile Mmap short_block 1) [xa3; x89] (mkfile Mmap short_block 3)
              [x82] (mkfile Mmap short_block 4)
              0 14 group0 (open_file Mmap short_group) 1
              (mkfile Mmap short_group 2) 1 1 (mkfile Mmap short_group 3)
              [xa1; x89] (mkfile Mmap short_group 5) [x82]
              (mkfile Mmap short_group 6)) as [T _];
    [by_eval | by_eval | by_eval | by_eval | by_eval | by_eval | by_eval
    | by_eval | by_eval | by_eval | by_eval | by_eval | by_eval |].
  apply T. discriminate.
Defined.

(** C8 (the claim as stated fails): with the undersized SimpleBlock in the
    file no error reaches the caller.  Asked for track 2 the extraction steps
    back over the bytes it took for a block header and returns the cue of the
    next block; asked for track 1 it returns a cue made of the bytes that
    follow. *)
Lemma undersized_block_not_reported :
  extract_subtitles 5 short_block_file 2 false
  = ([], Ok [Cue2 1050 (str_of_string "Hello")])
  /\ extract_subtitles 5 short_block_file 1 false
     = ([], Ok [Cue2 (-22671) ([0; 50; 0] ++ str_of_string "Hello")])
  /\ forall track e,
       (track = 1 \/ track = 2) ->
       snd (extract_subtitles 5 short_block_file track false) <> Raise e.
Proof.
  assert (E2 : extract_subtitles 5 short_block_file 2 false
               = ([], Ok [Cue2 1050 (str_of_string "Hello")]))
    by (vm_compute; reflexivity).
  assert (E1 : extract_subtitles 5 short_block_file 1 false
               = ([], Ok [Cue2 (-22671) ([0; 50; 0] ++ str_of_string "Hello")]))
    by (vm_compute; reflexivity).
  repeat split; trivial.
  intros track e [-> | ->]; [rewrite E1 | rewrite E2]; discriminate.
Qed.

(** ** Progress reports *)













(** The reports start again when [extract_subtitles] leaves the memory map
    for the buffered file: the seek over the third child of [restart_file]
    fails on the memory map after two reports, and the second scan repeats
    them. *)
Lemma progress_restarts_on_fallback :
  extract_subtitles 5 restart_file 2 true
  = ([Qmake 32 100; Qmake 64 100; Qmake 32 100; Qmake 64 100; Qmake 192 100],
     Ok []).
Proof. vm_compute. reflexivity. Qed.

(** ** An undersized block at the end of the file *)

(** A block scan that finds a SimpleBlock whose handling returns to the
    position of its own header never leaves the loop. *)
Lemma cluster_loop_stuck fuel f end_ base track sz f1 :
  tell f < end_ ->
  _read_header f = Ok (SIMPLEBLK, sz, f1) ->
  _handle_block f1 sz base track = Ok ([], f) ->
  forall n out, cluster_loop n fuel f end_ base track out = Diverge.
Proof.
  intros Ht Hh Hb. apply Z.ltb_lt in Ht.
  induction n as [|n IH]; intros out; [reflexivity|].
  cbn [cluster_loop]. rewrite Ht, Hh. cbn [bind]. rewrite Z.eqb_refl, Hb.
  cbn [bind]. rewrite app_nil_r. apply IH.
Qed.

(** On [loop_file] the timestamp and the flags of the last block are read past
    the end of the file, as nothing, and the seek of the payload length -3
    returns to the header of the block. *)
Lemma undersized_last_block_scan k (n : nat) :
  k = Mmap \/ k = Buffered ->
  _extract_subtitles_from n (open_file k loop_file) 2 false = ([], Diverge).
Proof.
  intros Hk. set (at_ p := mkfile k loop_file p).
  assert (H0 : _read_header (at_ 0) = Ok (0x1A45DFA3, 11, at_ 5))
    by (destruct Hk; subst k; vm_compute; reflexivity).
  assert (S0 : seek_cur 11 (at_ 5) = Ok (at_ 16))
    by (destruct Hk; subst k; vm_compute; reflexivity).
  assert (H1 : _read_header (at_ 16) = Ok (SEGMENT, 45, at_ 21))
    by (destruct Hk; subst k; vm_compute; reflexivity).
  assert (H2 : _read_header (at_ 21) = Ok (TRACKS, 28, at_ 26))
    by (destruct Hk; subst k; vm_compute; reflexivity).
  assert (S2 : seek_cur 28 (at_ 26) = Ok (at_ 54))
    by (destruct Hk; subst k; vm_compute; reflexivity).
  assert (H3 : _read_header (at_ 54) = Ok (CLUSTER, 7, at_ 59))
    by (destruct Hk; subst k; vm_compute; reflexivity).
  assert (H4 : _read_header (at_ 59) = Ok (TIMECODE, 2, at_ 61))
    by (destruct Hk; subst k; vm_compute; reflexivity).
  assert (R4 : read 2 (at_ 61) = Ok ([x03; xe8], at_ 63))
    by (destruct Hk; subst k; vm_compute; reflexivity).
  assert (H5 : _read_header (at_ 63) = Ok (SIMPLEBLK, 1, at_ 65))
    by (destruct Hk; subst k; vm_compute; reflexivity).
  assert (B5 : _handle_block (at_ 65) 1 1000 2 = Ok ([], at_ 63))
    by (destruct Hk; subst k; vm_compute; reflexivity).
  assert (C : forall fuel, _parse_cluster fuel (at_ 59) 7 2 = Diverge).
  { intros [|fuel]; [reflexivity|]. unfold _parse_cluster. cbv zeta.
    cbn [_read_cluster_time]. change (tell (at_ 59) <? tell (at_ 59) + 7) with true.
    cbv iota. rewrite H4. cbn [bind]. rewrite Z.eqb_refl, R4. cbn [bind].
    change (int_from_bytes [x03; xe8]) with 1000.
    apply (cluster_loop_stuck _ _ _ _ _ 1 (at_ 65)); trivial. reflexivity. }
  unfold _extract_subtitles_from. change (open_file k loop_file) with (at_ 0).
  rewrite H0; cbn [bind]. rewrite S0; cbn [bind]. rewrite H1; cbn [bind].
  rewrite Z.eqb_refl. cbn [negb].
  destruct n as [|n]; [reflexivity|]. cbn [segment_loop].
  change (tell (at_ 21) <? tell (at_ 21) + 45) with true. cbv iota.
  rewrite H2. cbn [bind]. unfold segment_child at 1.
  change (TRACKS =? CLUSTER) with false. cbv iota. rewrite S2. cbn [bind].
  destruct n as [|n]; [reflexivity|]. cbn [segment_loop].
  change (tell (at_ 54) <? tell (at_ 21) + 45) with true. cbv iota.
  rewrite H3. cbn [bind]. unfold segment_child. rewrite Z.eqb_refl, C.
  reflexivity.
Qed.

(** On that file the extraction for track 2 never returns, whatever the
    fuel. *)
Lemma undersized_last_block_loops (n : nat) :
  extract_subtitles n loop_file 2 false = ([], Diverge).
Proof.
  pose proof (undersized_last_block_scan Mmap n (or_introl eq_refl)) as E.
  unfold extract_subtitles.
  change loop_file with (x1a :: tl loop_file) at 1. cbv iota.
  change (x1a :: tl loop_file) with loop_file.
  rewrite E. reflexivity.
Qed.


(** * Further properties of the program *)

(** ** Numbers read from bytes *)

Lemma byte_val_range b : 0 <= byte_val b < 256.
Proof.
  unfold byte_val. pose proof (Byte.to_N_bounded b). lia.
Qed.

Lemma int_from_bytes_nonneg bs : 0 <= int_from_bytes bs.
Proof.
  unfold int_from_bytes.
  assert (G : forall acc, 0 <= acc ->
                0 <= fold_left (fun a b => a * 256 + byte_val b) bs acc).
  { induction bs as [|b bs IH]; intros acc Ha; simpl; [exact Ha|].
    apply IH. pose proof (byte_val_range b). lia. }
  apply G. lia.
Qed.

Lemma read_length n f bs f' :
  0 <= n -> read n f = Ok (bs, f') -> (length bs <= Z.to_nat n)%nat.
Proof.
  intros Hn H. rewrite read_nonneg in H by exact Hn. unfold take in H.
  ok_inj H. subst. apply firstn_le_length.
Qed.

(** The relative timestamp of a block, from the two bytes read for it or
    from the fewer bytes the source still had. *)
Lemma timestamp_range f tb f' :
  read 2 f = Ok (tb, f') -> -32768 <= int_from_bytes_signed tb <= 32767.
Proof.
  intros H. apply read_length in H; [|lia].
  destruct tb as [|a [|b [|c tb]]]; simpl in H; try lia.
  - vm_compute. split; discriminate.
  - pose proof (byte_val_range a). unfold int_from_bytes_signed, int_from_bytes.
    cbn [fold_left length]. change (8 * Z.of_nat 1) with 8.
    change (2 ^ (8 - 1)) with 128. change (2 ^ 8) with 256.
    change (0 <? 8) with true. cbn [andb].
    destruct (128 <=? 0 * 256 + byte_val a) eqn:E; lia.
  - pose proof (byte_val_range a). pose proof (byte_val_range b).
    unfold int_from_bytes_signed, int_from_bytes.
    cbn [fold_left length]. change (8 * Z.of_nat 2) with 16.
    change (2 ^ (16 - 1)) with 32768. change (2 ^ 16) with 65536.
    change (0 <? 16) with true. cbn [andb].
    destruct (32768 <=? (0 * 256 + byte_val a) * 256 + byte_val b) eqn:E;
      [apply Z.leb_le in E | apply Z.leb_gt in E]; lia.
Qed.

(** ** Trimmed text *)

Lemma headed_lstrip s : headed (lstrip s).
Proof.
  induction s as [|c s IH]; simpl; [exact I|].
  destruct (isspace c) eqn:E; [exact IH | exact E].
Qed.

Lemma lstrip_headed s : headed s -> lstrip s = s.
Proof. destruct s as [|c s]; simpl; [reflexivity|]. now intros ->. Qed.

Lemma lstrip_suffix s : exists p, s = p ++ lstrip s.
Proof.
  induction s as [|c s [p IH]]; [exists []; reflexivity|]. simpl.
  destruct (isspace c); [|exists []; reflexivity].
  exists (c :: p). simpl. now rewrite <- IH.
Qed.

Lemma headed_prefix a b : headed (a ++ b) -> a <> [] -> headed a.
Proof. destruct a; [congruence | trivial]. Qed.

Lemma trimmed_strip s : trimmed (strip s).
Proof.
  unfold trimmed, strip. rewrite rev_involutive. split; [|apply headed_lstrip].
  destruct (lstrip_suffix (rev (lstrip s))) as [p E].
  apply (f_equal (@rev Z)) in E. rewrite rev_involutive, rev_app_distr in E.
  destruct (rev (lstrip (rev (lstrip s)))) as [|c r] eqn:R; [exact I|].
  apply (headed_prefix (c :: r) (rev p)); [|discriminate].
  rewrite <- E. apply headed_lstrip.
Qed.

(** ** What every cue satisfies *)

Lemma handle_block_cues f sz base track cs f' :
  0 <= base ->
  _handle_block f sz base track = Ok (cs, f') ->
  Forall (fun c => well_timed c /\ well_worded c) cs.
Proof.
  unfold _handle_block. intros Hb H.
  inv_bind H. destruct a as [[trk vlen] f1]. cbv beta iota in H.
  inv_bind H. destruct a as [tb f2]. cbv beta iota zeta in H.
  apply timestamp_range in Hm0.
  inv_bind H. destruct a as [fl f3]. cbv beta iota in H.
  destruct (trk =? track).
  - inv_bind H. destruct a as [payload f4]. cbv beta iota in H.
    ok_inj H. subst. repeat constructor; simpl; try lia; apply trimmed_strip.
  - inv_bind H. ok_inj H. subst. constructor.
Qed.

Lemma group_loop_kept n :
  forall f end_ track st st' f',
    group_kept st ->
    group_loop n f end_ track st = Ok (st', f') ->
    group_kept st'.
Proof.
  induction n as [|n IH]; intros f end_ track st st' f' K H;
    cbn [group_loop] in H; [discriminate|].
  destruct (tell f <? end_); [|ok_inj H; subst; exact K].
  inv_bind H. destruct a as [[eid s] f1]. cbv beta iota in H.
  destruct K as (K1 & K2 & K3).
  assert (Keep : forall x y z,
             (forall s0, x = Some s0 -> trimmed s0) ->
             (forall t, y = Some t -> -32768 <= t <= 32767) ->
             (forall d, z = Some d -> 0 <= d) ->
             group_kept (mkgroup x y z)).
  { intros x y z A B C. repeat split; cbn [txt t_rel duration]; intros;
      first [now apply A | now apply B | now apply C]. }
  destruct (eid =? BLOCK).
  - cbv zeta in H. inv_bind H. destruct a as [[trk vlen] f2]. cbv beta iota in H.
    inv_bind H. destruct a as [tb f3]. cbv beta iota in H.
    apply timestamp_range in Hm1.
    inv_bind H. destruct a as [fl f4]. cbv beta iota in H.
    destruct (trk =? track).
    + inv_bind H. destruct a as [payload f5]. cbv beta iota in H.
      apply IH in H; [exact H|]. apply Keep; trivial.
      * intros s0 E. injection E as <-. apply trimmed_strip.
      * intros t E. injection E as <-. exact Hm1.
    + inv_bind H. apply IH in H; [exact H|]. apply Keep; trivial.
      intros t E. injection E as <-. exact Hm1.
  - destruct (eid =? BLOCKDUR).
    + inv_bind H. destruct a as [d f2]. cbv beta iota in H.
      apply IH in H; [exact H|]. apply Keep; trivial.
      intros d0 E. injection E as <-. apply int_from_bytes_nonneg.
    + inv_bind H. apply IH in H; [exact H|]. unfold group_kept. auto.
Qed.

Lemma handle_group_cues fuel f sz base track cs f' :
  0 <= base ->
  _handle_group fuel f sz base track = Ok (cs, f') ->
  Forall (fun c => well_timed c /\ well_worded c) cs.
Proof.
  unfold _handle_group. intros Hb H. cbv zeta in H.
  inv_bind H. destruct a as [st f1]. cbv beta iota in H. ok_inj H. subst.
  apply group_loop_kept in Hm.
  2:{ repeat split; simpl; intros; discriminate. }
  destruct Hm as (K1 & K2 & K3). unfold group_cues.
  destruct (txt st) as [s|]; [|constructor].
  destruct (t_rel st) as [t|]; [|constructor].
  specialize (K1 s eq_refl). specialize (K2 t eq_refl).
  destruct s as [|c s]; [constructor|]. cbn [nonempty].
  destruct (duration st) as [d|].
  - specialize (K3 d eq_refl). destruct (d =? 0) eqn:E.
    + repeat constructor; simpl; try lia; apply K1.
    + apply Z.eqb_neq in E.
      repeat constructor; simpl; try lia; try apply K1; discriminate.
  - repeat constructor; simpl; try lia; apply K1.
Qed.

Lemma read_cluster_time_nonneg n :
  forall f end_ base f',
    _read_cluster_time n f end_ = Ok (base, f') -> 0 <= base.
Proof.
  induction n as [|n IH]; intros f end_ base f' H;
    cbn [_read_cluster_time] in H; [discriminate|].
  destruct (tell f <? end_); [|ok_inj H; subst; lia].
  inv_bind H. destruct a as [[eid sz] f1]. cbv beta iota in H.
  destruct (eid =? TIMECODE).
  - inv_bind H. destruct a as [v f2]. cbv beta iota in H. ok_inj H. subst.
    apply int_from_bytes_nonneg.
  - inv_bind H. eapply IH, H.
Qed.

Lemma cluster_loop_cues fuel n :
  forall f end_ base track out cs f',
    0 <= base ->
    Forall (fun c => well_timed c /\ well_worded c) out ->
    cluster_loop n fuel f end_ base track out = Ok (cs, f') ->
    Forall (fun c => well_timed c /\ well_worded c) cs.
Proof.
  induction n as [|n IH]; intros f end_ base track out cs f' Hb Ho H;
    cbn [cluster_loop] in H; [discriminate|].
  destruct (tell f <? end_); [|ok_inj H; subst; exact Ho].
  inv_bind H. destruct a as [[eid sz] f1]. cbv beta iota in H.
  destruct (eid =? SIMPLEBLK).
  - inv_bind H. destruct a as [cs1 f2]. cbv beta iota in H.
    apply handle_block_cues in Hm0; [|exact Hb].
    eapply IH; [exact Hb | | exact H]. apply Forall_app. now split.
  - destruct (eid =? BLKGROUP).
    + inv_bind H. destruct a as [cs1 f2]. cbv beta iota in H.
      apply handle_group_cues in Hm0; [|exact Hb].
      eapply IH; [exact Hb | | exact H]. apply Forall_app. now split.
    + inv_bind H. eapply IH; [exact Hb | exact Ho | exact H].
Qed.

Lemma segment_loop_cues fuel n :
  forall f track op s e subs last log cs f',
    Forall (fun c => well_timed c /\ well_worded c) subs ->
    snd (segment_loop n fuel f track op s e subs last log) = Ok (cs, f') ->
    Forall (fun c => well_timed c /\ well_worded c) cs.
Proof.
  induction n as [|n IH]; intros f track op s e subs last log cs f' Hs H;
    cbn [segment_loop] in H; [discriminate|].
  destruct (tell f <? e); [|simpl in H; ok_inj H; subst; exact Hs].
  destruct (_read_header f) as [[[eid sz] f1]|x|]; cbn [bind] in H;
    try discriminate.
  destruct (segment_child fuel f1 eid sz track subs) as [[subs1 f2]|x|] eqn:C;
    try discriminate.
  assert (Hs1 : Forall (fun c => well_timed c /\ well_worded c) subs1).
  { unfold segment_child in C. destruct (eid =? CLUSTER).
    - inv_bind C. destruct a as [cs1 f3]. cbv beta iota in C. ok_inj C. subst.
      apply Forall_app. split; [exact Hs|].
      unfold _parse_cluster in Hm. cbv zeta in Hm. inv_bind Hm.
      destruct a as [base f4]. cbv beta iota in Hm.
      apply read_cluster_time_nonneg in Hm0.
      eapply cluster_loop_cues; [exact Hm0 | constructor | exact Hm].
    - inv_bind C. ok_inj C. subst. exact Hs. }
  destruct op; [destruct (negb _)|]; eapply IH; eauto.
Qed.

Lemma extract_from_cues fuel f track op cs f' :
  snd (_extract_subtitles_from fuel f track op) = Ok (cs, f') ->
  Forall (fun c => well_timed c /\ well_worded c) cs.
Proof.
  unfold _extract_subtitles_from. intros H.
  destruct (' (_, h, f0) <- _read_header f;;
            f1 <- seek_cur h f0;;
            ' (eid, h0, f2) <- _read_header f1;; Ok (eid, h0, f2))
    as [[[eid h] f2]|x|]; try discriminate.
  destruct (negb (eid =? SEGMENT)).
  - simpl in H. ok_inj H. subst. constructor.
  - eapply segment_loop_cues; [constructor | exact H].
Qed.

Lemma extract_cues fuel bs track op cs :
  snd (extract_subtitles fuel bs track op) = Ok cs ->
  Forall (fun c => well_timed c /\ well_worded c) cs.
Proof.
  assert (R : forall f, result (snd (_extract_subtitles_from fuel f track op)) = Ok cs ->
                   Forall (fun c => well_timed c /\ well_worded c) cs).
  { intros f H. unfold result in H. inv_bind H. destruct a as [cs' f'].
    ok_inj H. subst. eapply extract_from_cues, Hm. }
  unfold extract_subtitles. intros H.
  destruct (_extract_subtitles_from fuel (open_file Buffered bs) track op)
    as [logb rb] eqn:B.
  assert (Rb : result rb = Ok cs ->
               Forall (fun c => well_timed c /\ well_worded c) cs).
  { intros E. apply (R (open_file Buffered bs)). now rewrite B. }
  destruct bs as [|b bs]; [exact (Rb H)|].
  destruct (_extract_subtitles_from fuel (open_file Mmap (b :: bs)) track op)
    as [logm rm] eqn:M.
  assert (Rm : result rm = Ok cs ->
               Forall (fun c => well_timed c /\ well_worded c) cs).
  { intros E. apply (R (open_file Mmap (b :: bs))). now rewrite M. }
  destruct rm as [a|[]|]; simpl in H; auto.
Qed.

(** X1: every cue that [extract_subtitles] returns starts at -32768 or
    later (the Timecode of a Cluster is unsigned and the relative timestamp
    of a block is a signed 16-bit number), and a cue with an end time ends
    strictly after it starts. *)
Theorem cues_well_timed fuel bs track op cs :
  snd (extract_subtitles fuel bs track op) = Ok cs ->
  Forall well_timed cs.
Proof.
  intros H. apply extract_cues in H.
  eapply Forall_impl; [|exact H]. simpl. tauto.
Qed.

Lemma cues_well_timed_witness :
  Forall well_timed [Cue3 1050 (str_of_string "Hello") 3050].
Proof.
  apply (cues_well_timed 3 timed_group_file 2 false). vm_compute. reflexivity.
Defined.

(** X2: the text of every cue that [extract_subtitles] returns neither
    begins nor ends with white space, and the text of a cue with an end time
    is not empty. *)
Theorem cues_well_worded fuel bs track op cs :
  snd (extract_subtitles fuel bs track op) = Ok cs ->
  Forall well_worded cs.
Proof.
  intros H. apply extract_cues in H.
  eapply Forall_impl; [|exact H]. simpl. tauto.
Qed.

Lemma cues_well_worded_witness :
  Forall well_worded [Cue3 1050 (str_of_string "Hello") 3050].
Proof.
  apply (cues_well_worded 3 timed_group_file 2 false). vm_compute. reflexivity.
Defined.

(** ** The progress callback and the cues *)





(** ** What is left to read *)

Lemma skipn_firstn_length {A} k (l : list A) :
  skipn (length (firstn k l)) l = skipn k l.
Proof.
  rewrite length_firstn. destruct (Nat.le_ge_cases k (length l)) as [H|H].
  - now rewrite Nat.min_l.
  - rewrite Nat.min_r by exact H. now rewrite !skipn_all2 by lia.
Qed.

Lemma take_rest k f :
  0 <= pos f ->
  remaining (snd (take k f)) = skipn k (remaining f)
  /\ 0 <= pos (snd (take k f)).
Proof.
  intros Hp. unfold take, remaining. cbn [snd set_pos pos data]. split; [|lia].
  rewrite Z2Nat.inj_add, Nat2Z.id by lia.
  rewrite Nat.add_comm, <- skipn_skipn. apply skipn_firstn_length.
Qed.

(** A read takes its bytes from the front of what is left. *)
Lemma read_rest n f bs f' :
  0 <= pos f ->
  read n f = Ok (bs, f') ->
  0 <= pos f' /\ remaining f = bs ++ remaining f'.
Proof.
  intros Hp H.
  assert (T : forall k, Ok (take k f) = Ok (bs, f') ->
                   0 <= pos f' /\ remaining f = bs ++ remaining f').
  { intros k E. destruct (take_rest k f Hp) as [R P].
    pose proof (eq_refl : fst (take k f) = firstn k (remaining f)) as F.
    destruct (take k f) as [b t]. ok_inj E. subst. cbn [fst snd] in *.
    split; [exact P|]. rewrite R, F. symmetry. apply firstn_skipn. }
  unfold read in H. destruct (0 <=? n); [eauto|].
  destruct (kind f); eauto. destruct (n =? -1); [eauto | discriminate].
Qed.

Lemma read_encoded_rest f bs len f' :
  0 <= pos f ->
  read_encoded f = Ok (bs, len, f') ->
  0 <= pos f' /\ remaining f = bs ++ remaining f' /\ Z.of_nat (length bs) = len.
Proof.
  unfold read_encoded. intros Hp H. inv_bind H. destruct a as [b0 f1].
  cbv beta iota in H.
  assert (L0 : (length b0 <= Z.to_nat 1)%nat) by (eapply read_length, Hm; lia).
  apply read_rest in Hm; [|exact Hp]. destruct Hm as [P1 R1].
  destruct b0 as [|b b0]; [discriminate|].
  destruct (vint_length (byte_val b)) as [l|] eqn:L; [|discriminate].
  pose proof (vint_length_pos _ _ L) as Hl.
  inv_bind H. destruct a as [more f2]. cbv beta iota in H.
  assert (L1 : (length more <= Z.to_nat (l - 1))%nat)
    by (eapply read_length, Hm; lia).
  apply read_rest in Hm; [|exact P1]. destruct Hm as [P2 R2].
  destruct (Z.of_nat (length more) <? l - 1) eqn:S; [discriminate|].
  apply Z.ltb_ge in S. ok_inj H. subst.
  split; [exact P2|]. split.
  - rewrite R1, R2. now rewrite app_assoc.
  - rewrite length_app. simpl in L0. simpl length. lia.
Qed.

Lemma read_header_rest f eid sz f' :
  0 <= pos f ->
  _read_header f = Ok (eid, sz, f') ->
  0 <= pos f' /\ 0 <= sz
  /\ (length (remaining f') + 2 <= length (remaining f))%nat.
Proof.
  intros Hp H. pose proof (read_header_spec _ _ _ _ H) as (_ & _ & _ & Hsz).
  unfold _read_header, read_id, read_size in H.
  inv_bind H. destruct a as [[e l] f1]. cbv beta iota in H.
  inv_bind Hm. destruct a as [[bs l'] f0]. cbv beta iota in Hm.
  pose proof (read_encoded_spec _ _ _ _ Hm0) as (_ & _ & _ & Hl1).
  apply read_encoded_rest in Hm0; [|exact Hp]. destruct Hm0 as (P1 & R1 & N1).
  ok_inj Hm. subst f0.
  inv_bind H. destruct a as [[s l2] f2]. cbv beta iota in H.
  inv_bind Hm0. destruct a as [[bs2 l3] f3]. cbv beta iota in Hm0.
  pose proof (read_encoded_spec _ _ _ _ Hm1) as (_ & _ & _ & Hl2).
  apply read_encoded_rest in Hm1; [|exact P1]. destruct Hm1 as (P2 & R2 & N2).
  ok_inj Hm0. subst f3. ok_inj H. subst f2.
  split; [exact P2|]. split; [exact Hsz|].
  rewrite R1, R2, !length_app. lia.
Qed.

Lemma seek_cur_rest n f f' :
  0 <= pos f -> 0 <= n -> seek_cur n f = Ok f' ->
  0 <= pos f' /\ (length (remaining f') <= length (remaining f))%nat.
Proof.
  intros Hp Hn H.
  assert (S : pos f <= pos f' /\ data f' = data f).
  { unfold seek_cur, seek_set in H.
    destruct (kind f);
      repeat match type of H with
             | (if ?c then _ else _) = _ => destruct c
             end; inversion H; simpl; split; trivial; lia. }
  destruct S as [S D]. split; [lia|].
  unfold remaining. rewrite D, !length_skipn. lia.
Qed.

(** ** The track listing always ends *)

Lemma read_header_returns f : _read_header f <> Diverge.
Proof.
  assert (R : forall n g, read n g <> Diverge).
  { intros n g. unfold read. destruct (0 <=? n); [discriminate|].
    destruct (kind g); try discriminate. destruct (n =? -1); discriminate. }
  assert (E : forall g, read_encoded g <> Diverge).
  { intros g. unfold read_encoded. pose proof (R 1 g) as R1.
    destruct (read 1 g) as [[b0 g1]| |]; cbn [bind]; try congruence.
    destruct b0 as [|b b0]; [discriminate|].
    destruct (vint_length (byte_val b)) as [l|]; [|discriminate].
    pose proof (R (l - 1) g1) as R2.
    destruct (read (l - 1) g1) as [[more g2]| |]; cbn [bind]; try congruence.
    destruct (Z.of_nat (length more) <? l - 1); discriminate. }
  unfold _read_header, read_id, read_size. pose proof (E f) as E1.
  destruct (read_encoded f) as [[[bs l] f1]| |]; cbn [bind]; try congruence.
  pose proof (E f1) as E2.
  destruct (read_encoded f1) as [[[bs2 l2] f2]| |]; cbn [bind]; congruence.
Qed.

Lemma read_returns n f : read n f <> Diverge.
Proof.
  unfold read. destruct (0 <=? n); [discriminate|].
  destruct (kind f); try discriminate. destruct (n =? -1); discriminate.
Qed.

Lemma seek_cur_returns n f : seek_cur n f <> Diverge.
Proof.
  unfold seek_cur, seek_set.
  destruct (kind f);
    repeat match goal with
           | |- context [if ?c then _ else _] => destruct c
           end; discriminate.
Qed.

Lemma set_field_returns info eid v : set_field info eid v <> Diverge.
Proof.
  unfold set_field.
  repeat match goal with
         | |- context [if ?c then _ else _] => destruct c
         | |- context [match ?v with [] => _ | _ :: _ => _ end] => destruct v
         end; discriminate.
Qed.

Lemma track_entry_loop_ends n :
  forall buf info,
    0 <= pos buf -> (length (remaining buf) < n)%nat ->
    track_entry_loop n buf info <> Diverge.
Proof.
  induction n as [|n IH]; intros buf info Hp Hn; [lia|].
  cbn [track_entry_loop]. pose proof (read_header_returns buf) as H.
  destruct (_read_header buf) as [[[eid sz] buf1]|[]|] eqn:Hh;
    try discriminate; try congruence.
  apply read_header_rest in Hh; [|exact Hp]. destruct Hh as (P1 & _ & R1).
  pose proof (read_returns sz buf1) as R.
  destruct (read sz buf1) as [[v buf2]|e|] eqn:Hr; cbn [bind];
    [|discriminate|congruence].
  apply read_rest in Hr; [|exact P1]. destruct Hr as (P2 & R2).
  pose proof (set_field_returns info eid v) as S.
  destruct (set_field info eid v) as [info'|e|]; cbn [bind];
    [|discriminate|congruence].
  apply IH; [exact P2|]. rewrite R2, length_app in R1. lia.
Qed.

Lemma tracks_loop_ends fuel n :
  forall buf out,
    0 <= pos buf -> (length (remaining buf) < n)%nat ->
    (length (remaining buf) < fuel)%nat ->
    tracks_loop n fuel buf out <> Diverge.
Proof.
  induction n as [|n IH]; intros buf out Hp Hn Hf; [lia|].
  cbn [tracks_loop]. pose proof (read_header_returns buf) as H.
  destruct (_read_header buf) as [[[eid sz] buf1]|[]|] eqn:Hh;
    try discriminate; try congruence.
  apply read_header_rest in Hh; [|exact Hp]. destruct Hh as (P1 & _ & R1).
  pose proof (read_returns sz buf1) as R.
  destruct (read sz buf1) as [[v buf2]|e|] eqn:Hr; cbn [bind];
    [|discriminate|congruence].
  apply read_rest in Hr; [|exact P1]. destruct Hr as (P2 & R2).
  rewrite R2, length_app in R1.
  destruct (eid =? TRACKENTRY); [|apply IH; trivial; lia].
  unfold _parse_track_entry.
  pose proof (track_entry_loop_ends fuel (open_file BytesIO v) info0) as T.
  destruct (track_entry_loop fuel (open_file BytesIO v) info0) as [info|e|];
    cbn [bind]; [apply IH; trivial; lia | discriminate |].
  exfalso. apply T; [simpl; lia | | reflexivity].
  unfold remaining, open_file. simpl. lia.
Qed.

Lemma find_tracks_ends fuel n :
  forall f end_,
    0 <= pos f -> (length (remaining f) < n)%nat ->
    (length (remaining f) < fuel)%nat ->
    find_tracks n fuel f end_ <> Diverge.
Proof.
  induction n as [|n IH]; intros f end_ Hp Hn Hf; [lia|].
  cbn [find_tracks]. destruct (tell f <? end_); [|discriminate].
  pose proof (read_header_returns f) as H.
  destruct (_read_header f) as [[[eid sz] f1]|e|] eqn:Hh; cbn [bind];
    [|discriminate|congruence].
  apply read_header_rest in Hh; [|exact Hp]. destruct Hh as (P1 & Hsz & R1).
  destruct (eid =? TRACKS).
  - pose proof (read_returns sz f1) as R.
    destruct (read sz f1) as [[body f2]|e|] eqn:Hr; cbn [bind];
      [|discriminate|congruence].
    apply read_rest in Hr; [|exact P1]. destruct Hr as (P2 & R2).
    rewrite R2, length_app in R1. unfold _parse_tracks.
    pose proof (tracks_loop_ends fuel fuel (open_file BytesIO body) []) as T.
    destruct (tracks_loop fuel fuel (open_file BytesIO body) []) as [ts|e|];
      cbn [bind]; try discriminate.
    exfalso. apply T; try reflexivity; unfold remaining, open_file; simpl; lia.
  - pose proof (seek_cur_returns sz f1) as S.
    destruct (seek_cur sz f1) as [f2|e|] eqn:Hs; cbn [bind];
      [|discriminate|congruence].
    apply seek_cur_rest in Hs; trivial. destruct Hs as (P2 & R2).
    apply IH; trivial; lia.
Qed.

(** X4: the track listing ends on every file: with a fuel above the number
    of bytes, [extract_subtitle_tracks] returns a list or raises, and so do
    [_parse_tracks] and [_parse_track_entry] on every buffer; none of their
    loops can go on for ever, each turn taking at least two bytes. *)
Theorem track_listing_ends fuel bs :
  (length bs < fuel)%nat ->
  extract_subtitle_tracks fuel bs <> Diverge
  /\ _parse_tracks fuel bs <> Diverge
  /\ _parse_track_entry fuel bs <> Diverge.
Proof.
  intros Hn.
  assert (O : forall k, remaining (open_file k bs) = bs) by reflexivity.
  split; [|split].
  - unfold extract_subtitle_tracks. cbv zeta.
    pose proof (read_header_returns (open_file Buffered bs)) as H.
    destruct (_read_header (open_file Buffered bs)) as [[[e1 h1] f1]|e|] eqn:H1;
      cbn [bind]; [|discriminate|congruence].
    apply read_header_rest in H1; [|simpl; lia]. destruct H1 as (P1 & Hh & R1).
    rewrite O in R1.
    pose proof (seek_cur_returns h1 f1) as S.
    destruct (seek_cur h1 f1) as [f2|e|] eqn:H2; cbn [bind];
      [|discriminate|congruence].
    apply seek_cur_rest in H2; trivial. destruct H2 as (P2 & R2).
    pose proof (read_header_returns f2) as H'.
    destruct (_read_header f2) as [[[eid h] f3]|e|] eqn:H3; cbn [bind];
      [|discriminate|congruence].
    apply read_header_rest in H3; [|exact P2]. destruct H3 as (P3 & _ & R3).
    destruct (negb (eid =? SEGMENT)); [discriminate|].
    apply find_tracks_ends; trivial; lia.
  - unfold _parse_tracks. apply tracks_loop_ends; rewrite ?O; simpl; lia.
  - unfold _parse_track_entry. apply track_entry_loop_ends; rewrite ?O; simpl; lia.
Qed.

Lemma track_listing_ends_witness :
  extract_subtitle_tracks 75 scenario_file <> Diverge
  /\ _parse_tracks 75 scenario_file <> Diverge
  /\ _parse_track_entry 75 scenario_file <> Diverge.
Proof.
  apply (track_listing_ends 75 scenario_file). vm_compute. lia.
Defined.

(** ** The descriptors of the track listing *)

Lemma find_tracks_subtitles fuel n :
  forall f end_ ts,
    find_tracks n fuel f end_ = Ok ts -> Forall (fun t => type t = 0x11) ts.
Proof.
  induction n as [|n IH]; intros f end_ ts H; cbn [find_tracks] in H;
    [discriminate|].
  destruct (tell f <? end_); [|ok_inj H; subst; constructor].
  inv_bind H. destruct a as [[eid sz] f1]. cbv beta iota in H.
  destruct (eid =? TRACKS).
  - inv_bind H. destruct a as [body f2]. cbv beta iota in H.
    inv_bind H. ok_inj H. subst. apply Forall_forall. intros t Ht.
    apply filter_In in Ht. destruct Ht as [_ Ht]. now apply Z.eqb_eq in Ht.
  - inv_bind H. eapply IH, H.
Qed.

(** X5: every descriptor that [extract_subtitle_tracks] returns has the
    track type 0x11: tracks of any other type, and entries without a
    TrackType element (type 0), are left out. *)
Theorem listing_holds_subtitle_tracks_only fuel bs ts :
  extract_subtitle_tracks fuel bs = Ok ts ->
  Forall (fun t => type t = 0x11) ts.
Proof.
  unfold extract_subtitle_tracks. cbv zeta. intros H.
  inv_bind H. destruct a as [[e1 h1] f1]. cbv beta iota in H.
  inv_bind H. inv_bind H. destruct a0 as [[eid h] f3]. cbv beta iota in H.
  destruct (negb (eid =? SEGMENT)); [ok_inj H; subst; constructor|].
  eapply find_tracks_subtitles, H.
Qed.

(** A Tracks element with a video track (type 1, number 1) and the subtitle
    track of the scenario. *)
Lemma listing_holds_subtitle_tracks_only_witness :
  Forall (fun t => type t = 0x11)
    [mkinfo 0x11 2 (str_of_string "S_TEXT/UTF8") (str_of_string "eng") []].
Proof.
  apply (listing_holds_subtitle_tracks_only 5 two_track_file).
  vm_compute. reflexivity.
Defined.

Lemma find_tracks_passed fuel end_ f es f' :
  passed TRACKS end_ f es f' ->
  forall n, find_tracks (length es + n) fuel f end_ = find_tracks n fuel f' end_.
Proof.
  induction 1 as [f | f eid sz f1 f2 es f' Ht Hh Hne Hs _ IH]; intros n;
    [reflexivity|].
  cbn [length Nat.add find_tracks].
  apply Z.ltb_lt in Ht. apply Z.eqb_neq in Hne.
  rewrite Ht, Hh. cbn [bind]. rewrite Hne, Hs. cbn [bind]. apply IH.
Qed.

(** X6: the track listing comes from the first Tracks element among the
    children of the Segment: the children before it are passed by their
    size, its body alone is parsed, and nothing after it is read, so that a
    later Tracks element has no effect; a Segment without Tracks element
    gives the empty list. *)
Theorem listing_from_first_tracks_element fuel bs e1 h1 g1 g2 h f pre f1 :
  _read_header (open_file Buffered bs) = Ok (e1, h1, g1) ->
  seek_cur h1 g1 = Ok g2 ->
  _read_header g2 = Ok (SEGMENT, h, f) ->
  passed TRACKS (tell f + h) f pre f1 ->
  (length pre < fuel)%nat ->
  (forall sz f2 body f3,
      tell f1 < tell f + h ->
      _read_header f1 = Ok (TRACKS, sz, f2) ->
      read sz f2 = Ok (body, f3) ->
      extract_subtitle_tracks fuel bs
      = (ts <- _parse_tracks fuel body;; Ok (filter (fun t => type t =? 0x11) ts)))
  /\ (tell f + h <= tell f1 -> extract_subtitle_tracks fuel bs = Ok []).
Proof.
  intros H1 H2 H3 Hp Hn.
  assert (E : extract_subtitle_tracks fuel bs
              = find_tracks (S (fuel - length pre - 1)) fuel f1 (tell f + h)).
  { unfold extract_subtitle_tracks. cbv zeta. rewrite H1; cbn [bind].
    rewrite H2; cbn [bind]. rewrite H3; cbn [bind].
    rewrite Z.eqb_refl. cbn [negb].
    rewrite <- (find_tracks_passed _ _ _ _ _ Hp). f_equal. lia. }
  rewrite E. cbn [find_tracks]. split.
  - intros sz f2 body f3 Ht Hh Hr. apply Z.ltb_lt in Ht.
    rewrite Ht, Hh. cbn [bind]. rewrite Z.eqb_refl, Hr. reflexivity.
  - intros He. apply Z.ltb_ge in He. now rewrite He.
Qed.

Lemma listing_from_first_tracks_element_witness :
  extract_subtitle_tracks 5 two_track_file
  = (ts <- _parse_tracks 5 two_tracks;; Ok (filter (fun t => type t =? 0x11) ts)).
Proof.
  destruct (listing_from_first_tracks_element 5 two_track_file
              0x1A45DFA3 11 (mkfile Buffered two_track_file 5)
              (mkfile Buffered two_track_file 16) 48
              (mkfile Buffered two_track_file 21) [0xEC]
              (mkfile Buffered two_track_file 25)) as [T _];
    [ by_eval | by_eval | by_eval
    | eapply passed_cons; [by_eval | by_eval | by_eval | by_eval | apply passed_nil]
    | simpl; lia | ].
  apply (T 39 (mkfile Buffered two_track_file 30) two_tracks
           (mkfile Buffered two_track_file 69)); by_eval.
Defined.

Lemma parse_entries_length fuel vs :
  forall ts, parse_entries fuel vs = Ok ts -> length ts = length vs.
Proof.
  induction vs as [|v vs IH]; intros ts H; simpl in H.
  - ok_inj H. now subst.
  - inv_bind H. inv_bind H. ok_inj H. subst. simpl. f_equal. eauto.
Qed.

Lemma tracks_loop_scanned fuel buf es :
  scanned buf es ->
  forall n out, (length es < n)%nat ->
  tracks_loop n fuel buf out
  = (r <- parse_entries fuel (values_of TRACKENTRY es);; Ok (out ++ r)).
Proof.
  induction 1 as [buf H | buf eid sz buf1 v buf2 es H Hr _ IH];
    intros [|n] out Hn; simpl in Hn; try lia; cbn [tracks_loop].
  - rewrite H. simpl. now rewrite app_nil_r.
  - rewrite H, Hr. cbn [bind]. unfold values_of. cbn [filter fst].
    destruct (eid =? TRACKENTRY); cbn [map snd parse_entries].
    + destruct (_parse_track_entry fuel v) as [info| |]; cbn [bind]; trivial.
      rewrite IH by lia. fold (values_of TRACKENTRY es).
      destruct (parse_entries fuel (values_of TRACKENTRY es)); cbn [bind]; trivial.
      now rewrite <- app_assoc.
    + apply IH. lia.
Qed.

(** X7: [_parse_tracks] gives one descriptor for each TrackEntry element of
    the Tracks body, in the order of the elements, and takes no account of
    any other element; the first TrackEntry that raises makes the whole
    parse raise. *)
Theorem one_descriptor_per_track_entry fuel bs es :
  scanned (open_file BytesIO bs) es ->
  (length es < fuel)%nat ->
  _parse_tracks fuel bs = parse_entries fuel (values_of TRACKENTRY es)
  /\ forall ts, _parse_tracks fuel bs = Ok ts ->
                length ts = length (values_of TRACKENTRY es).
Proof.
  intros Hs Hn.
  assert (E : _parse_tracks fuel bs = parse_entries fuel (values_of TRACKENTRY es)).
  { unfold _parse_tracks. rewrite (tracks_loop_scanned _ _ _ Hs) by exact Hn.
    destruct (parse_entries fuel (values_of TRACKENTRY es)); reflexivity. }
  split; [exact E|]. intros ts H. rewrite E in H.
  eapply parse_entries_length, H.
Qed.

Lemma one_descriptor_per_track_entry_witness :
  _parse_tracks 5 two_tracks
  = Ok [mkinfo 1 1 [] [] [];
        mkinfo 0x11 2 (str_of_string "S_TEXT/UTF8") (str_of_string "eng") []].
Proof.
  destruct (one_descriptor_per_track_entry 5 two_tracks
              [(TRACKENTRY, element [x83] [x01] ++ element [xd7] [x01]);
               (0xEC, [x00]);
               (TRACKENTRY, element [x83] [x11] ++ element [xd7] [x02]
                            ++ element [x86] (bytes_of_string "S_TEXT/UTF8")
                            ++ lang "eng")]) as [T _].
  - eapply scanned_elem; [by_eval | by_eval |].
    eapply scanned_elem; [by_eval | by_eval |].
    eapply scanned_elem; [by_eval | by_eval |].
    apply scanned_end. by_eval.
  - simpl. lia.
  - rewrite T. vm_compute. reflexivity.
Defined.

(** ** The fields of a descriptor *)

Lemma last_after_some {A} (l : list A) : forall x, exists y, last_after (Some x) l = Some y.
Proof.
  induction l as [|a l IH]; intros x; simpl; [eauto|]. apply IH.
Qed.

Lemma last_value_cons {A} (conv : list byte -> A) d eid0 eid v es :
  last_value conv d eid0 ((eid, v) :: es)
  = last_value conv (if eid =? eid0 then conv v else d) eid0 es.
Proof.
  unfold last_value, values_of. cbn [filter fst].
  destruct (eid =? eid0); [|reflexivity]. cbn [map snd].
  fold (values_of eid0 es). unfold last_of at 1. cbn [last_after fold_left].
  fold (last_after (Some v) (values_of eid0 es)).
  destruct (values_of eid0 es) as [|w l]; [reflexivity|].
  unfold last_of. cbn [last_after fold_left].
  fold (last_after (Some w) l).
  destruct (last_after_some l w) as [y ->]. reflexivity.
Qed.

Section Field.
Context {A : Type} (get : track_info -> A) (conv : list byte -> A) (eid0 : Z).
Hypothesis set_get :
  forall info eid v info',
    set_field info eid v = Ok info' ->
    get info' = if eid =? eid0 then conv v else get info.

Lemma set_fields_get es :
  forall info info',
    set_fields info es = Ok info' ->
    get info' = last_value conv (get info) eid0 es.
Proof.
  induction es as [|[eid v] es IH]; intros info info' H; simpl in H.
  - ok_inj H. now subst.
  - inv_bind H. rewrite last_value_cons, <- (set_get _ _ _ _ Hm). now apply IH.
Qed.

End Field.

Ltac field_get H :=
  unfold set_field in H;
  repeat match type of H with
         | (if ?c then _ else _) = _ =>
             let E := fresh "E" in destruct c eqn:E
         | match ?v with [] => _ | _ :: _ => _ end = _ => destruct v
         end;
  try discriminate; ok_inj H; subst;
  repeat match goal with
         | E : (_ && _) = true |- _ =>
             apply andb_true_iff in E; destruct E as [E _]
         | E : (_ =? _) = true |- _ => apply Z.eqb_eq in E; subst
         end;
  try reflexivity.

Lemma set_field_type info eid v info' :
  set_field info eid v = Ok info' ->
  type info' = if eid =? TRACKTYPE then first_byte v else type info.
Proof. intros H. field_get H. Qed.

Lemma set_field_track_number info eid v info' :
  set_field info eid v = Ok info' ->
  track_number info' = if eid =? TRACKNUMBER then int_from_bytes v else track_number info.
Proof. intros H. field_get H. Qed.

Lemma set_field_codec_id info eid v info' :
  set_field info eid v = Ok info' ->
  codec_id info' = if eid =? CODECID then decode v else codec_id info.
Proof. intros H. field_get H. Qed.

Lemma set_field_name info eid v info' :
  set_field info eid v = Ok info' ->
  name info' = if eid =? TRACKNAME then decode v else name info.
Proof. intros H. field_get H. Qed.

(** X8: in every TrackEntry the type, the track number, the codec
    identifier and the name of the descriptor are given by the last element
    of their kind (the first byte of the last TrackType, the big-endian
    value of the last TrackNumber, the decoded text of the last CodecID and
    of the last TrackName); a field without element keeps its default, 0 or
    the empty string. *)
Theorem last_element_sets_the_field fuel bs es :
  scanned (open_file BytesIO bs) es ->
  (length es < fuel)%nat ->
  typed es ->
  exists info,
    _parse_track_entry fuel bs = Ok info
    /\ type info = last_value first_byte 0 TRACKTYPE es
    /\ track_number info = last_value int_from_bytes 0 TRACKNUMBER es
    /\ codec_id info = last_value decode [] CODECID es
    /\ name info = last_value decode [] TRACKNAME es.
Proof.
  intros Hs Hn Ht. unfold _parse_track_entry.
  rewrite (track_entry_loop_scanned _ _ Hs) by exact Hn.
  destruct (set_fields_ok es Ht info0) as [info E]. exists info.
  split; [exact E|]. repeat split.
  - apply (set_fields_get type first_byte TRACKTYPE set_field_type _ _ _ E).
  - apply (set_fields_get track_number int_from_bytes TRACKNUMBER
             set_field_track_number _ _ _ E).
  - apply (set_fields_get codec_id decode CODECID set_field_codec_id _ _ _ E).
  - apply (set_fields_get name decode TRACKNAME set_field_name _ _ _ E).
Qed.

Lemma last_element_sets_the_field_witness :
  exists info,
    _parse_track_entry 6 twice_numbered = Ok info
    /\ type info = 0x11 /\ track_number info = 2
    /\ codec_id info = [] /\ name info = str_of_string "b".
Proof.
  destruct (last_element_sets_the_field 6 twice_numbered twice_numbered_elements)
    as (info & E & T1 & T2 & T3 & T4).
  - repeat (eapply scanned_elem; [by_eval | by_eval |]).
    apply scanned_end. by_eval.
  - simpl. lia.
  - repeat constructor; simpl; intros; discriminate.
  - exists info. rewrite T1, T2, T3, T4. repeat split; trivial.
Defined.

Lemma set_fields_fails info pre post :
  typed pre ->
  set_fields info (pre ++ (TRACKTYPE, []) :: post) = Raise IndexError.
Proof.
  intros Ht. rewrite set_fields_app.
  destruct (set_fields_ok pre Ht info) as [i E]. rewrite E. reflexivity.
Qed.

(** X9: a TrackEntry that holds a TrackType element without value makes
    [_parse_track_entry] raise [IndexError] (from [v[0]]), whatever the
    elements before and after it are; the descriptor is lost. *)
Theorem empty_track_type_raises fuel bs es pre post :
  scanned (open_file BytesIO bs) es ->
  (length es < fuel)%nat ->
  es = pre ++ (TRACKTYPE, []) :: post ->
  typed pre ->
  _parse_track_entry fuel bs = Raise IndexError.
Proof.
  intros Hs Hn -> Ht. unfold _parse_track_entry.
  rewrite (track_entry_loop_scanned _ _ Hs) by exact Hn.
  now apply set_fields_fails.
Qed.

Lemma empty_track_type_raises_witness :
  _parse_track_entry 4 untyped_entry = Raise IndexError.
Proof.
  apply (empty_track_type_raises 4 untyped_entry
           [(TRACKNUMBER, [x02]); (TRACKTYPE, []); (TRACKNAME, bytes_of_string "a")]
           [(TRACKNUMBER, [x02])] [(TRACKNAME, bytes_of_string "a")]).
  - repeat (eapply scanned_elem; [by_eval | by_eval |]).
    apply scanned_end. by_eval.
  - simpl. lia.
  - reflexivity.
  - repeat constructor; simpl; intros; discriminate.
Defined.

(** ** Files that cannot be entered *)

(** X10: when the header of the first element cannot be read (an empty
    file, a file that ends inside the header, a first byte that starts no
    identifier), both entry points raise the error of the reader: neither
    returns an empty list, the progress callback is not called, and the
    retry of [extract_subtitles] on the buffered file ends the same way. *)
Theorem unreadable_first_header_raises fuel bs track op e :
  _read_header (open_file Buffered bs) = Raise e ->
  extract_subtitle_tracks fuel bs = Raise e
  /\ extract_subtitles fuel bs track op = ([], Raise e).
Proof.
  intros H. split.
  - unfold extract_subtitle_tracks. cbv zeta. now rewrite H.
  - assert (B : _extract_subtitles_from fuel (open_file Buffered bs) track op
                = ([], Raise e))
      by (unfold _extract_subtitles_from; now rewrite H).
    assert (M : _extract_subtitles_from fuel (open_file Mmap bs) track op
                = ([], Raise e)).
    { unfold _extract_subtitles_from.
      change (open_file Mmap bs) with (as_kind Mmap (open_file Buffered bs)).
      now rewrite read_header_as_kind, H. }
    unfold extract_subtitles. rewrite B.
    destruct bs as [|b bs]; [reflexivity|]. rewrite M.
    destruct e; reflexivity.
Qed.

Lemma unreadable_first_header_raises_witness :
  extract_subtitle_tracks 5 [] = Raise EOFError
  /\ extract_subtitles 5 [] 2 true = ([], Raise EOFError).
Proof.
  apply (unreadable_first_header_raises 5 [] 2 true EOFError). by_eval.
Defined.

(** ** Where a scan stops *)

Lemma segment_loop_ends fuel n :
  forall f track op s e subs last log cs f',
    snd (segment_loop n fuel f track op s e subs last log) = Ok (cs, f') ->
    e <= tell f'.
Proof.
  induction n as [|n IH]; intros f track op s e subs last log cs f' H;
    cbn [segment_loop] in H; [discriminate|].
  destruct (tell f <? e) eqn:Ht.
  2:{ simpl in H. ok_inj H. subst. now apply Z.ltb_ge. }
  destruct (' (eid, sz, f1) <- _read_header f;;
            segment_child fuel f1 eid sz track subs) as [[subs1 f2]|x|];
    try discriminate.
  destruct op; [destruct (negb _)|]; eapply IH, H.
Qed.

(** X11: a normal return of [_extract_subtitles_from] on a file with a
    Segment means that the scan went through the whole Segment: the reader
    then stands at or past the declared end of the Segment, so the list of
    cues is never what a scan that stopped half-way had gathered. *)
Theorem normal_return_reaches_segment_end fuel f track op e1 h1 f1 f2 h f3 cs f' :
  _read_header f = Ok (e1, h1, f1) ->
  seek_cur h1 f1 = Ok f2 ->
  _read_header f2 = Ok (SEGMENT, h, f3) ->
  snd (_extract_subtitles_from fuel f track op) = Ok (cs, f') ->
  tell f3 + h <= tell f'.
Proof.
  intros H1 H2 H3 H. unfold _extract_subtitles_from in H.
  rewrite H1 in H; cbn [bind] in H. rewrite H2 in H; cbn [bind] in H.
  rewrite H3 in H; cbn [bind] in H. rewrite Z.eqb_refl in H. cbn [negb] in H.
  eapply segment_loop_ends, H.
Qed.

Lemma normal_return_reaches_segment_end_witness :
  tell (mkfile Buffered scenario_file 21) + 53
  <= tell (mkfile Buffered scenario_file 74).
Proof.
  apply (normal_return_reaches_segment_end 3 (open_file Buffered scenario_file)
           2 false 0x1A45DFA3 11 (mkfile Buffered scenario_file 5)
           (mkfile Buffered scenario_file 16) 53
           (mkfile Buffered scenario_file 21)
           [Cue2 1050 (str_of_string "Hello")]); by_eval.
Defined.

(** ** A scan that never ends *)

(** X12: when the handling of a SimpleBlock of another track brings the
    reader back to the header of that block (its declared size is too small
    and the file ends before the three bytes after the track number), the
    block scan of the Cluster reads the same block again and again: it does
    not return, whatever the fuel. *)
Theorem block_scan_returning_to_its_header_never_ends
  fuel f end_ base track sz f1 trk vlen f2 tb f3 fl f4 :
  tell f < end_ ->
  _read_header f = Ok (SIMPLEBLK, sz, f1) ->
  read_vint f1 = Ok (trk, vlen, f2) ->
  read 2 f2 = Ok (tb, f3) ->
  read 1 f3 = Ok (fl, f4) ->
  trk <> track ->
  seek_cur (sz - vlen - 3) f4 = Ok f ->
  forall n out, cluster_loop n fuel f end_ base track out = Diverge.
Proof.
  intros Ht Hh Hv H2 H1 Hne Hs.
  apply (cluster_loop_stuck fuel f end_ base track sz f1 Ht Hh).
  apply (handle_block_miss _ _ _ _ _ _ _ _ _ _ _ _ Hv H2 H1 Hne Hs).
Qed.

Lemma block_scan_returning_to_its_header_never_ends_witness :
  cluster_loop 1000 5 (mkfile Mmap loop_file 63) 66 1000 2 [] = Diverge.
Proof.
  refine (block_scan_returning_to_its_header_never_ends 5
            (mkfile Mmap loop_file 63) 66 1000 2 1 (mkfile Mmap loop_file 65)
            1 1 (mkfile Mmap loop_file 66) [] (mkfile Mmap loop_file 66)
            [] (mkfile Mmap loop_file 66) _ _ _ _ _ _ _ 1000%nat []); by_eval.
Defined.

(** ** Complete blocks *)

Lemma read_tell n f bs f' :
  read n f = Ok (bs, f') ->
  tell f' = tell f + Z.of_nat (length bs) /\ data f' = data f /\ kind f' = kind f.
Proof.
  intros H.
  assert (T : forall k, Ok (take k f) = Ok (bs, f') ->
                   tell f' = tell f + Z.of_nat (length bs)
                   /\ data f' = data f /\ kind f' = kind f).
  { intros k E. unfold take in E. ok_inj E. subst. repeat split. }
  unfold read in H. destruct (0 <=? n); [eauto|].
  destruct (kind f); eauto. destruct (n =? -1); [eauto | discriminate].
Qed.

(** A read within the data delivers all the bytes asked for. *)
Lemma read_full n f :
  0 <= tell f -> 0 <= n -> tell f + n <= size f ->
  exists bs f', read n f = Ok (bs, f')
                /\ Z.of_nat (length bs) = n /\ tell f' = tell f + n
                /\ data f' = data f /\ kind f' = kind f.
Proof.
  unfold tell, size. intros Hp Hn Hs. rewrite read_nonneg by exact Hn.
  unfold take. do 2 eexists. split; [reflexivity|].
  assert (L : Z.of_nat (length (firstn (Z.to_nat n) (remaining f))) = n).
  { rewrite length_firstn. unfold remaining. rewrite length_skipn. lia. }
  cbn [set_pos pos data kind]. rewrite L. repeat split.
Qed.

Lemma read_encoded_tell f bs len f' :
  read_encoded f = Ok (bs, len, f') ->
  tell f' = tell f + Z.of_nat (length bs) /\ data f' = data f /\ kind f' = kind f.
Proof.
  unfold read_encoded. intros H. inv_bind H. destruct a as [b0 f1].
  cbv beta iota in H. apply read_tell in Hm. destruct Hm as (T1 & D1 & K1).
  destruct b0 as [|b b0]; [discriminate|].
  destruct (vint_length (byte_val b)) as [l|]; [|discriminate].
  inv_bind H. destruct a as [more f2]. cbv beta iota in H.
  apply read_tell in Hm. destruct Hm as (T2 & D2 & K2).
  destruct (Z.of_nat (length more) <? l - 1); [discriminate|].
  ok_inj H. subst. rewrite length_app, Nat2Z.inj_add.
  repeat split; try congruence. lia.
Qed.

Lemma read_vint_tell f trk vlen f' :
  0 <= tell f ->
  read_vint f = Ok (trk, vlen, f') ->
  tell f' = tell f + vlen /\ data f' = data f /\ kind f' = kind f /\ 1 <= vlen.
Proof.
  unfold read_vint, read_size. intros Hp H. inv_bind H.
  destruct a as [[bs l] f1]. cbv beta iota in H. ok_inj H. subst.
  pose proof (read_encoded_spec _ _ _ _ Hm) as (_ & _ & _ & L).
  pose proof (read_encoded_tell _ _ _ _ Hm) as (T & D & K).
  apply read_encoded_rest in Hm; [|exact Hp]. destruct Hm as (_ & _ & N).
  repeat split; trivial; lia.
Qed.

(** X13: a SimpleBlock whose declared size covers its header (the track
    number and three bytes more) and lies within the file is handled
    without error and leaves the reader exactly at the end of the block: a
    block of another track gives no cue, a block of the requested track
    gives exactly one 2-tuple. *)
Theorem complete_block_is_consumed f sz base track trk vlen f1 :
  0 <= tell f ->
  read_vint f = Ok (trk, vlen, f1) ->
  vlen + 3 <= sz ->
  tell f + sz <= size f ->
  exists cs f',
    _handle_block f sz base track = Ok (cs, f')
    /\ tell f' = tell f + sz
    /\ (trk <> track -> cs = [])
    /\ (trk = track -> exists t x, cs = [Cue2 (base + t) x]).
Proof.
  intros Hp Hv Hsz Hin.
  pose proof (read_vint_tell _ _ _ _ Hp Hv) as (T1 & D1 & K1 & L1).
  assert (S1 : size f1 = size f) by (unfold size; now rewrite D1).
  destruct (read_full 2 f1) as (tb & f2 & R2 & _ & T2 & D2 & K2); try lia.
  assert (S2 : size f2 = size f1) by (unfold size; now rewrite D2).
  destruct (read_full 1 f2) as (fl & f3 & R3 & _ & T3 & D3 & K3); try lia.
  assert (S3 : size f3 = size f2) by (unfold size; now rewrite D3).
  destruct (Z.eq_dec trk track) as [E|E].
  - destruct (read_full (sz - vlen - 3) f3) as (p & f4 & R4 & _ & T4 & _);
      try lia.
    exists [Cue2 (base + int_from_bytes_signed tb) (strip (decode p))], f4.
    subst trk. rewrite (handle_block_hit _ _ _ _ _ _ _ _ _ _ _ _ Hv R2 R3 R4).
    split; [reflexivity|]. split; [lia|]. split; [congruence | eauto].
  - assert (S : seek_cur (sz - vlen - 3) f3
                = Ok (set_pos f3 (tell f3 + (sz - vlen - 3)))).
    { unfold seek_cur, seek_set, tell in *.
      assert (A : (pos f3 + (sz - vlen - 3) <? 0) = false)
        by (apply Z.ltb_ge; lia).
      assert (B : (size f3 <? pos f3 + (sz - vlen - 3)) = false)
        by (apply Z.ltb_ge; lia).
      destruct (kind f3); rewrite ?A, ?B; cbn [orb]; trivial.
      now rewrite Z.max_r by lia. }
    exists [], (set_pos f3 (tell f3 + (sz - vlen - 3))).
    rewrite (handle_block_miss _ _ _ _ _ _ _ _ _ _ _ _ Hv R2 R3 E S).
    split; [reflexivity|]. split; [unfold tell in *; simpl; lia|].
    split; [reflexivity | congruence].
Qed.

Lemma complete_block_is_consumed_witness :
  exists cs f',
    _handle_block (mkfile Buffered late_timecode 2) 9 1000 2 = Ok (cs, f')
    /\ tell f' = tell (mkfile Buffered late_timecode 2) + 9
    /\ (2 <> 2 -> cs = [])
    /\ (2 = 2 -> exists t x, cs = [Cue2 (1000 + t) x]).
Proof.
  apply (complete_block_is_consumed (mkfile Buffered late_timecode 2) 9 1000 2
           2 1 (mkfile Buffered late_timecode 3)); by_eval.
Defined.

(** ** The order of the cues *)



